(** * pret-immo: the loan-capacity engine of [LoanCapacity.tsx]

    A shallow embedding of the calculation functions of
    [src/components/LoanCapacity/LoanCapacity.tsx] and of the derived state
    of the [LoanCapacity] component, followed by the properties the
    specification states about them.

    Number model.  A TypeScript [number] that carries money or a rate is a
    real ([R], exact arithmetic: rounding of IEEE doubles is not modelled);
    the module [Double] holds the calculation functions over IEEE doubles,
    for the statements that rounding decides.
    A [number] that counts years or months is an integer ([Z]); a loop
    [for (m = 0; m < months; m++)] therefore runs [Z.to_nat months] times.
    [Number(x) || 0] is the identity on such values.  [Math.pow b (-n)] for
    an integer [n] is [powerRZ b (-n)], [Math.max] is [Rmax]. *)

From Stdlib Require Import Reals ZArith List Bool Lia Lra.
From Stdlib Require String PrimFloat Uint63.
Import ListNotations String.StringSyntax.
#[local] Open Scope string_scope.

Open Scope R_scope.

(** ** Comparisons of the source, as booleans *)

Definition Rgtb (x y : R) : bool := if Rlt_dec y x then true else false.
Definition Rleb (x y : R) : bool := if Rle_dec x y then true else false.
Definition Reqb (x y : R) : bool := if Req_dec_T x y then true else false.

(** ** Types *)

Record RatePeriod : Type := mkRatePeriod { years : Z; rate : R }.

Record AmortizationRow : Type := mkRow {
  month : Z;
  capitalBefore : R;
  interest : R;
  amortization : R;
  installment : R;
  capitalAfter : R
}.

Inductive RateMode : Type := single | multi.

Definition RateMode_eqb (a b : RateMode) : bool :=
  match a, b with
  | single, single | multi, multi => true
  | _, _ => false
  end.

(** ** Constants *)

Definition MAX_LOAN_DURATION_YEARS : Z := 25.
Definition DEBT_TO_INCOME_RATIO : R := 1 / 3.
Definition DEFAULT_RATE : R := 3.8.

(** ** Utility functions *)

Definition toMonthlyRate (annualRate : R) : R :=
  if Rgtb annualRate 0 then annualRate / 100 / 12 else 0.

Definition sumPeriodYears (periods : list RatePeriod) : Z :=
  fold_left (fun sum p => (sum + years p)%Z) periods 0%Z.

(** ** Calculation functions *)

Definition calculateMaxMonthlyInstallment (monthlyIncome : R) : R :=
  if Rgtb monthlyIncome 0 then monthlyIncome * DEBT_TO_INCOME_RATIO else 0.

Definition calculateLoanPrincipalWithSingleRate
    (maxInstallment annualRate : R) (totalMonths : Z) : R :=
  if (totalMonths <=? 0)%Z || Rleb maxInstallment 0 then 0
  else
    let monthlyRate := toMonthlyRate annualRate in
    if Reqb monthlyRate 0 then maxInstallment * IZR totalMonths
    else
      let denominator :=
        monthlyRate / (1 - powerRZ (1 + monthlyRate) (- totalMonths)) in
      maxInstallment / denominator.

(** The three locals of the multi-rate walk. *)
Record PvState : Type := mkPv {
  pvFactorSum : R;
  discountFactor : R;
  monthsCount : Z
}.

(** One pass through the body of the inner loop. *)
Definition pvStep (monthlyRate : R) (st : PvState) : PvState :=
  let discountFactor' := discountFactor st / (1 + monthlyRate) in
  {| pvFactorSum := pvFactorSum st + discountFactor';
     discountFactor := discountFactor';
     monthsCount := (monthsCount st + 1)%Z |}.

(** [for (let m = 0; m < months; m++)] with its leading [break]; [iters]
    is the number of passes the loop header still allows. *)
Fixpoint pvInnerLoop (iters : nat) (monthlyRate : R) (totalMonths : Z)
    (st : PvState) : PvState :=
  match iters with
  | O => st
  | S iters' =>
      if (monthsCount st >=? totalMonths)%Z then st
      else pvInnerLoop iters' monthlyRate totalMonths (pvStep monthlyRate st)
  end.

(** [for (const period of periods)] with its trailing [break]. *)
Fixpoint pvOuterLoop (periods : list RatePeriod) (totalMonths : Z)
    (st : PvState) : PvState :=
  match periods with
  | [] => st
  | period :: rest =>
      let months := (years period * 12)%Z in
      let monthlyRate := toMonthlyRate (rate period) in
      let st' := pvInnerLoop (Z.to_nat months) monthlyRate totalMonths st in
      if (monthsCount st' >=? totalMonths)%Z then st'
      else pvOuterLoop rest totalMonths st'
  end.

Definition pvInit : PvState :=
  {| pvFactorSum := 0; discountFactor := 1; monthsCount := 0 |}.

Definition calculateLoanPrincipalWithMultipleRates
    (maxInstallment : R) (periods : list RatePeriod) (totalMonths : Z) : R :=
  if (totalMonths <=? 0)%Z || Rleb maxInstallment 0
     || (length periods =? 0)%nat
  then 0
  else maxInstallment * pvFactorSum (pvOuterLoop periods totalMonths pvInit).

(** The two locals of the multi branch of [buildMonthlyRatesArray];
    [push] appends at the end. *)
Record RatesState : Type := mkRates {
  monthlyRatesAcc : list R;
  monthIdx : Z
}.

Fixpoint ratesInnerLoop (iters : nat) (r : R) (totalMonths : Z)
    (st : RatesState) : RatesState :=
  match iters with
  | O => st
  | S iters' =>
      if (monthIdx st <? totalMonths)%Z
      then ratesInnerLoop iters' r totalMonths
             {| monthlyRatesAcc := monthlyRatesAcc st ++ [r];
                monthIdx := (monthIdx st + 1)%Z |}
      else st
  end.

Fixpoint ratesOuterLoop (periods : list RatePeriod) (totalMonths : Z)
    (st : RatesState) : RatesState :=
  match periods with
  | [] => st
  | period :: rest =>
      let months := (years period * 12)%Z in
      let r := toMonthlyRate (rate period) in
      let st' := ratesInnerLoop (Z.to_nat months) r totalMonths st in
      if (monthIdx st' >=? totalMonths)%Z then st'
      else ratesOuterLoop rest totalMonths st'
  end.

(** Largest length a JavaScript array accepts: [2^32 - 1]. *)
Definition MAX_ARRAY_LENGTH : Z := 4294967295.

(** The single branch assigns [monthlyRates.length = totalMonths], which
    throws a [RangeError] unless [totalMonths] is a valid array length;
    [None] stands for that exception. *)
Definition buildMonthlyRatesArray (rateMode : RateMode)
    (periods : list RatePeriod) (singleRate : R) (totalMonths : Z)
    : option (list R) :=
  if RateMode_eqb rateMode multi then
    Some (monthlyRatesAcc
            (ratesOuterLoop periods totalMonths
               {| monthlyRatesAcc := []; monthIdx := 0 |}))
  else
    let r := toMonthlyRate singleRate in
    if (0 <=? totalMonths)%Z && (totalMonths <=? MAX_ARRAY_LENGTH)%Z
    then Some (repeat r (Z.to_nat totalMonths))
    else None.

(** The body of the amortization loop for one [month], given the capital
    still due. *)
Definition amortizationRow (maxInstallment : R) (monthlyRates : list R)
    (m : Z) (remainingCapital : R) : AmortizationRow :=
  let capitalBefore := remainingCapital in
  let r := nth (Z.to_nat (m - 1)) monthlyRates 0 in
  let interest := capitalBefore * r in
  let amortization := maxInstallment - interest in
  let capitalAfter := Rmax (capitalBefore - amortization) 0 in
  {| month := m;
     capitalBefore := capitalBefore;
     interest := interest;
     amortization := amortization;
     installment := maxInstallment;
     capitalAfter := capitalAfter |}.

(** [for (let month = 1; month <= totalMonths; month++)] with its trailing
    [break]; [iters] is the number of passes the loop header still allows,
    and rows come out in the order they are pushed. *)
Fixpoint amortizationLoop (iters : nat) (maxInstallment : R)
    (monthlyRates : list R) (m : Z) (remainingCapital : R)
    : list AmortizationRow :=
  match iters with
  | O => []
  | S iters' =>
      let row := amortizationRow maxInstallment monthlyRates m remainingCapital in
      if Rleb (capitalAfter row) 0 then [row]
      else row :: amortizationLoop iters' maxInstallment monthlyRates
                    (m + 1)%Z (capitalAfter row)
  end.

Definition buildAmortizationTable (maxLoanPrincipal maxInstallment : R)
    (monthlyRates : list R) (totalMonths : Z) : list AmortizationRow :=
  if Rleb maxLoanPrincipal 0 || (totalMonths <=? 0)%Z then []
  else amortizationLoop (Z.to_nat totalMonths) maxInstallment monthlyRates
         1%Z maxLoanPrincipal.

(** ** Derived state of the component *)

Record FormValues : Type := mkForm {
  monthlyIncome : R;
  interestRate : R;
  durationYears : Z;
  ratePeriods : list RatePeriod
}.

Module LoanCapacity.
Section Derived.

Variable rateMode : RateMode.
Variable form : FormValues.

Definition totalMonths : Z := (durationYears form * 12)%Z.

Definition periodsActive : bool := (0 <? length (ratePeriods form))%nat.

Definition usePeriods : bool := RateMode_eqb rateMode multi && periodsActive.

Definition periodsYearsTotal : Z :=
  if usePeriods then sumPeriodYears (ratePeriods form) else 0%Z.

Definition periodsMismatch : bool :=
  usePeriods && negb (periodsYearsTotal =? durationYears form)%Z.

Definition maxMonthlyInstallment : R :=
  calculateMaxMonthlyInstallment (monthlyIncome form).

Definition maxLoanPrincipal : R :=
  if Rleb maxMonthlyInstallment 0 then 0
  else if usePeriods && negb periodsMismatch
  then calculateLoanPrincipalWithMultipleRates
         maxMonthlyInstallment (ratePeriods form) totalMonths
  else calculateLoanPrincipalWithSingleRate
         maxMonthlyInstallment (interestRate form) totalMonths.

Definition monthlyRates : option (list R) :=
  buildMonthlyRatesArray
    (if usePeriods && negb periodsMismatch then multi else single)
    (ratePeriods form) (interestRate form) totalMonths.

Definition amortizationTable : option (list AmortizationRow) :=
  option_map
    (fun rates =>
       buildAmortizationTable maxLoanPrincipal maxMonthlyInstallment
         rates totalMonths)
    monthlyRates.

End Derived.
End LoanCapacity.

(** ** Event handlers and the auto-fill effect of the component

    [form.setFieldValue("ratePeriods.<i>.years", v)] replaces the [years]
    of the period at index [i]; [form.insertListItem("ratePeriods", item)],
    called without an index, appends [item]. *)

Definition setPeriodYears (index : nat) (v : Z) (periods : list RatePeriod)
    : list RatePeriod :=
  match nth_error periods index with
  | Some p =>
      firstn index periods
        ++ {| years := v; rate := rate p |} :: skipn (S index) periods
  | None => periods
  end.

Definition setRatePeriods (form : FormValues) (periods : list RatePeriod)
    : FormValues :=
  {| monthlyIncome := monthlyIncome form;
     interestRate := interestRate form;
     durationYears := durationYears form;
     ratePeriods := periods |}.

(** The effect that keeps the last period's years equal to the remainder
    of the duration; the result is the form after the effect has run. *)
Definition autoFillLastPeriod (rateMode : RateMode) (form : FormValues)
    : FormValues :=
  if negb (RateMode_eqb rateMode multi) then form
  else
    let periods := ratePeriods form in
    let duration := durationYears form in
    if (length periods =? 0)%nat || (duration <=? 0)%Z then form
    else
      let lastIndex := (length periods - 1)%nat in
      let sumExceptLast :=
        fold_left (fun s p => (s + years p)%Z) (firstn lastIndex periods) 0%Z in
      let targetLastYears := Z.max (duration - sumExceptLast) 0 in
      let currentLastYears :=
        match nth_error periods lastIndex with
        | Some p => years p
        | None => 0%Z
        end in
      if negb (currentLastYears =? targetLastYears)%Z
      then setRatePeriods form (setPeriodYears lastIndex targetLastYears periods)
      else form.

Definition handleAddPeriod (form : FormValues) : FormValues :=
  let periods := ratePeriods form in
  let used := sumPeriodYears periods in
  let remaining := Z.max (durationYears form - used) 0 in
  setRatePeriods form
    (periods ++ [ {| years := if (remaining =? 0)%Z then 1%Z else remaining;
                  rate := DEFAULT_RATE |} ]).

(** ** The earlier, inlined version of the component
    ([LoanCapacity.backup.tsx]) *)

Module Backup.

(** Body of the inner loop of the multi-rate walk. *)
Definition pvStep (rMonthly : R) (st : PvState) : PvState :=
  let discountFactor' := discountFactor st * (1 / (1 + rMonthly)) in
  {| pvFactorSum := pvFactorSum st + discountFactor';
     discountFactor := discountFactor';
     monthsCount := (monthsCount st + 1)%Z |}.

Fixpoint pvInnerLoop (iters : nat) (rMonthly : R) (totalMonths : Z)
    (st : PvState) : PvState :=
  match iters with
  | O => st
  | S iters' =>
      if (monthsCount st >=? totalMonths)%Z then st
      else pvInnerLoop iters' rMonthly totalMonths (pvStep rMonthly st)
  end.

Fixpoint pvOuterLoop (periods : list RatePeriod) (totalMonths : Z)
    (st : PvState) : PvState :=
  match periods with
  | [] => st
  | period :: rest =>
      let months := (years period * 12)%Z in
      let rMonthly :=
        if Rgtb (rate period) 0 then rate period / 100 / 12 else 0 in
      let st' := pvInnerLoop (Z.to_nat months) rMonthly totalMonths st in
      if (monthsCount st' >=? totalMonths)%Z then st'
      else pvOuterLoop rest totalMonths st'
  end.

(** The month-to-rate map of the multi branch, with the [break] at the head
    of the inner loop body. *)
Fixpoint ratesInnerLoop (iters : nat) (r : R) (totalMonths : Z)
    (st : RatesState) : RatesState :=
  match iters with
  | O => st
  | S iters' =>
      if (monthIdx st >=? totalMonths)%Z then st
      else ratesInnerLoop iters' r totalMonths
             {| monthlyRatesAcc := monthlyRatesAcc st ++ [r];
                monthIdx := (monthIdx st + 1)%Z |}
  end.

Fixpoint ratesOuterLoop (periods : list RatePeriod) (totalMonths : Z)
    (st : RatesState) : RatesState :=
  match periods with
  | [] => st
  | period :: rest =>
      let months := (years period * 12)%Z in
      let r := if Rgtb (rate period) 0 then rate period / 100 / 12 else 0 in
      let st' := ratesInnerLoop (Z.to_nat months) r totalMonths st in
      if (monthIdx st' >=? totalMonths)%Z then st'
      else ratesOuterLoop rest totalMonths st'
  end.

(** [for (let m = 0; m < totalMonths; m++) monthlyRates.push(rate)]. *)
Fixpoint ratesSingleLoop (iters : nat) (r : R) (acc : list R) : list R :=
  match iters with
  | O => acc
  | S iters' => ratesSingleLoop iters' r (acc ++ [r])
  end.

Section Derived.

Variable rateMode : RateMode.
Variable form : FormValues.

Definition maxMonthlyInstallment : R :=
  if Rgtb (monthlyIncome form) 0 then monthlyIncome form / 3 else 0.

Definition totalMonths : Z := (durationYears form * 12)%Z.

Definition periodsActive : bool := (0 <? length (ratePeriods form))%nat.

Definition usePeriods : bool := RateMode_eqb rateMode multi && periodsActive.

Definition periodsYearsTotal : Z :=
  if usePeriods
  then fold_left (fun s p => (s + years p)%Z) (ratePeriods form) 0%Z
  else 0%Z.

Definition periodsMismatch : bool :=
  usePeriods && negb (periodsYearsTotal =? durationYears form)%Z.

Definition maxLoanPrincipal : R :=
  if Rgtb maxMonthlyInstallment 0 then
    if usePeriods && negb periodsMismatch then
      maxMonthlyInstallment
      * pvFactorSum (pvOuterLoop (ratePeriods form) totalMonths pvInit)
    else
      let monthlyRate :=
        if Rgtb (interestRate form) 0 then interestRate form / 100 / 12
        else 0 in
      if (totalMonths >? 0)%Z then
        if Reqb monthlyRate 0 then maxMonthlyInstallment * IZR totalMonths
        else
          let denom :=
            monthlyRate / (1 - powerRZ (1 + monthlyRate) (- totalMonths)) in
          maxMonthlyInstallment / denom
      else 0
  else 0.

(** The month-to-rate map built inside [buildAmortizationTable]. *)
Definition monthlyRates : list R :=
  if usePeriods && negb periodsMismatch then
    monthlyRatesAcc
      (ratesOuterLoop (ratePeriods form) totalMonths
         {| monthlyRatesAcc := []; monthIdx := 0 |})
  else
    let r :=
      if Rgtb (interestRate form) 0 then interestRate form / 100 / 12
      else 0 in
    ratesSingleLoop (Z.to_nat totalMonths) r [].

(** The amortization loop is the one of the current version, word for
    word, over the outer [maxMonthlyInstallment]. *)
Definition buildAmortizationTable : list AmortizationRow :=
  if Rleb maxLoanPrincipal 0 || (totalMonths <=? 0)%Z then []
  else amortizationLoop (Z.to_nat totalMonths) maxMonthlyInstallment
         monthlyRates 1%Z maxLoanPrincipal.

Definition amortizationTable : list AmortizationRow := buildAmortizationTable.

End Derived.
End Backup.

(** ** Form validation

    A value that reaches a validator is any [number]: it may be [NaN] or
    infinite, which the validators test for. *)

Inductive JsNumber : Type :=
  | JsNaN
  | JsPosInfinity
  | JsNegInfinity
  | JsFinite (x : R).

Definition isNaN (v : JsNumber) : bool :=
  match v with JsNaN => true | _ => false end.

Definition isFinite (v : JsNumber) : bool :=
  match v with JsFinite _ => true | _ => false end.

(** [!value]. *)
Definition jsNot (v : JsNumber) : bool :=
  match v with
  | JsNaN => true
  | JsFinite x => Reqb x 0
  | _ => false
  end.

(** [value <= c], [value < c] and [value > c] against a finite [c]. *)
Definition jsLe (v : JsNumber) (c : R) : bool :=
  match v with
  | JsNaN | JsPosInfinity => false
  | JsNegInfinity => true
  | JsFinite x => Rleb x c
  end.

Definition jsLt (v : JsNumber) (c : R) : bool :=
  match v with
  | JsNaN | JsPosInfinity => false
  | JsNegInfinity => true
  | JsFinite x => Rgtb c x
  end.

Definition jsGt (v : JsNumber) (c : R) : bool :=
  match v with
  | JsNaN | JsNegInfinity => false
  | JsPosInfinity => true
  | JsFinite x => Rgtb x c
  end.

(** A period as the validator sees it. *)
Record RatePeriodInput : Type := mkRatePeriodInput {
  yearsInput : JsNumber;
  rateInput : JsNumber
}.

Module validate.

Definition monthlyIncome (value : JsNumber) : option String.string :=
  if isNaN value || jsNot value
  then Some "Le revenu mensuel doit être un nombre"
  else if jsLe value 0
  then Some "Le revenu mensuel doit être supérieur à 0"
  else None.

Definition interestRate (value : JsNumber) : option String.string :=
  if isNaN value || jsNot value
  then Some "Le taux d'intérêt doit être un nombre"
  else if jsLt value 0
  then Some "Le taux d'intérêt ne peut pas être négatif"
  else None.

(** The message of the range test is the template filled with
    [MAX_LOAN_DURATION_YEARS]. *)
Definition durationYears (value : JsNumber) : option String.string :=
  if isNaN value || jsNot value
  then Some "La durée doit être un nombre"
  else if jsLe value 0 || jsGt value (IZR MAX_LOAN_DURATION_YEARS)
  then Some "La durée doit être comprise entre 1 et 25 ans"
  else None.

Definition ratePeriods (periods : list RatePeriodInput) : option String.string :=
  if (length periods =? 0)%nat then None
  else if existsb
            (fun p => negb (isFinite (yearsInput p)) || jsLe (yearsInput p) 0)
            periods
  then Some "Chaque période doit avoir des années > 0"
  else if existsb
            (fun p => negb (isFinite (rateInput p)) || jsLt (rateInput p) 0)
            periods
  then Some "Les taux ne peuvent pas être négatifs"
  else None.

End validate.

(** ** The calculation functions in double precision

    The same functions over IEEE binary64 values, the [number] of the
    program: [+], [-], [*], [/] and the comparisons are the primitive
    double operations, which round as JavaScript does.  Counts of years and
    months stay integers; [ofZ] is their exact double (below [2^53]).
    [Math.pow] is implementation-approximated; [Math_pow] computes an
    integer power by repeated multiplication, which is exact, and so the
    value every implementation returns, when no step rounds (powers of 1
    and of 2 or 4 within range, the only ones used below). *)

Module Double.
Import PrimFloat.
#[local] Open Scope float_scope.

Record RatePeriod : Type := mkRatePeriod { years : Z; rate : float }.

Record PvState : Type := mkPv {
  pvFactorSum : float;
  discountFactor : float;
  monthsCount : Z
}.

Definition ofZ (n : Z) : float := of_uint63 (Uint63.of_Z n).

Fixpoint powNat (base : float) (n : nat) : float :=
  match n with
  | O => 1
  | S k => base * powNat base k
  end.

Definition Math_pow (base : float) (exponent : Z) : float :=
  if (exponent <? 0)%Z then 1 / powNat base (Z.to_nat (- exponent))
  else powNat base (Z.to_nat exponent).

Definition DEBT_TO_INCOME_RATIO : float := 1 / 3.

Definition toMonthlyRate (annualRate : float) : float :=
  if 0 <? annualRate then annualRate / 100 / 12 else 0.

Definition calculateMaxMonthlyInstallment (monthlyIncome : float) : float :=
  if 0 <? monthlyIncome then monthlyIncome * DEBT_TO_INCOME_RATIO else 0.

Definition calculateLoanPrincipalWithSingleRate
    (maxInstallment annualRate : float) (totalMonths : Z) : float :=
  if ((totalMonths <=? 0)%Z || (maxInstallment <=? 0))%bool then 0
  else
    let monthlyRate := toMonthlyRate annualRate in
    if monthlyRate =? 0 then maxInstallment * ofZ totalMonths
    else
      let denominator :=
        monthlyRate / (1 - Math_pow (1 + monthlyRate) (- totalMonths)) in
      maxInstallment / denominator.

Definition pvStep (monthlyRate : float) (st : PvState) : PvState :=
  let discountFactor' := discountFactor st / (1 + monthlyRate) in
  {| pvFactorSum := pvFactorSum st + discountFactor';
     discountFactor := discountFactor';
     monthsCount := (monthsCount st + 1)%Z |}.

Fixpoint pvInnerLoop (iters : nat) (monthlyRate : float) (totalMonths : Z)
    (st : PvState) : PvState :=
  match iters with
  | O => st
  | S iters' =>
      if (monthsCount st >=? totalMonths)%Z then st
      else pvInnerLoop iters' monthlyRate totalMonths (pvStep monthlyRate st)
  end.

Fixpoint pvOuterLoop (periods : list RatePeriod) (totalMonths : Z)
    (st : PvState) : PvState :=
  match periods with
  | [] => st
  | period :: rest =>
      let months := (years period * 12)%Z in
      let monthlyRate := toMonthlyRate (rate period) in
      let st' := pvInnerLoop (Z.to_nat months) monthlyRate totalMonths st in
      if (monthsCount st' >=? totalMonths)%Z then st'
      else pvOuterLoop rest totalMonths st'
  end.

Definition calculateLoanPrincipalWithMultipleRates
    (maxInstallment : float) (periods : list RatePeriod) (totalMonths : Z)
    : float :=
  if ((totalMonths <=? 0)%Z || (maxInstallment <=? 0)
      || (length periods =? 0)%nat)%bool
  then 0
  else
    maxInstallment
    * pvFactorSum
        (pvOuterLoop periods totalMonths
           {| pvFactorSum := 0; discountFactor := 1; monthsCount := 0 |}).

End Double.

(** * Reference definitions used by the statements *)

(** The schedule the specification describes: every period contributes
    [years * 12] months at its own monthly rate, in order. *)
Definition periodMonths (p : RatePeriod) : nat := Z.to_nat (years p * 12).

Definition expandPeriods (periods : list RatePeriod) : list R :=
  flat_map (fun p => repeat (toMonthlyRate (rate p)) (periodMonths p)) periods.

(** Number of months the period list covers. *)
Definition sumPeriodMonths (periods : list RatePeriod) : Z :=
  fold_right (fun p acc => (Z.max 0 (years p * 12) + acc)%Z) 0%Z periods.

(** Discount factors of consecutive months, starting after the factor [d]:
    each one is the previous one divided by [1 + rate of the month]. *)
Fixpoint discountFactorsFrom (d : R) (rates : list R) : list R :=
  match rates with
  | [] => []
  | r :: rest => let d' := d / (1 + r) in d' :: discountFactorsFrom d' rest
  end.

Definition sumR (l : list R) : R := fold_right Rplus 0 l.

(** The loop body applied once per month of a list of rates. *)
Definition pvRun (rates : list R) (st : PvState) : PvState :=
  fold_left (fun s r => pvStep r s) rates st.

(** A period list in which every negative annual rate is replaced by 0. *)
Definition zeroNegativeRate (p : RatePeriod) : RatePeriod :=
  {| years := years p; rate := if Rgtb 0 (rate p) then 0 else rate p |}.

(** The mode both consumers of the component are given. *)
Definition effectiveMulti (rateMode : RateMode) (form : FormValues) : bool :=
  LoanCapacity.usePeriods rateMode form
  && negb (LoanCapacity.periodsMismatch rateMode form).

(** [q + q^2 + ... + q^n], the sum of the discount factors of [n] months at
    a constant monthly factor [q]. *)
Fixpoint annuityFactor (q : R) (n : nat) : R :=
  match n with
  | O => 0
  | S k => q * (1 + annuityFactor q k)
  end.

(** Present value of one unit paid at the end of every month of a list of
    monthly rates: the sum of the discount factors. *)
Definition pvFactor (rates : list R) : R := sumR (discountFactorsFrom 1 rates).

(** * Properties *)

(** ** The comparisons decide their relations *)

Lemma Rgtb_true x y : Rgtb x y = true <-> y < x.
Proof. unfold Rgtb; destruct (Rlt_dec y x); split; intros; congruence || lra. Qed.

Lemma Rgtb_false x y : Rgtb x y = false <-> x <= y.
Proof. unfold Rgtb; destruct (Rlt_dec y x); split; intros; congruence || lra. Qed.

Lemma Rleb_true x y : Rleb x y = true <-> x <= y.
Proof. unfold Rleb; destruct (Rle_dec x y); split; intros; congruence || lra. Qed.

Lemma Rleb_false x y : Rleb x y = false <-> y < x.
Proof. unfold Rleb; destruct (Rle_dec x y); split; intros; congruence || lra. Qed.

Lemma Reqb_true x y : Reqb x y = true <-> x = y.
Proof. unfold Reqb; destruct (Req_dec_T x y); split; intros; congruence. Qed.

Lemma Reqb_false x y : Reqb x y = false <-> x <> y.
Proof. unfold Reqb; destruct (Req_dec_T x y); split; intros; congruence. Qed.

(** Splits on every real comparison of the goal and keeps the fact each
    branch took as a hypothesis. *)
Ltac case_cmp :=
  repeat match goal with
  | |- context [Rgtb ?x ?y] =>
      let E := fresh "E" in
      destruct (Rgtb x y) eqn:E;
      [apply Rgtb_true in E | apply Rgtb_false in E]
  | |- context [Rleb ?x ?y] =>
      let E := fresh "E" in
      destruct (Rleb x y) eqn:E;
      [apply Rleb_true in E | apply Rleb_false in E]
  | |- context [Reqb ?x ?y] =>
      let E := fresh "E" in
      destruct (Reqb x y) eqn:E;
      [apply Reqb_true in E | apply Reqb_false in E]
  end.

(** ** Monthly-rate conversion *)

Lemma toMonthlyRate_pos a : 0 < a -> toMonthlyRate a = a / 100 / 12.
Proof. intros H; unfold toMonthlyRate; case_cmp; lra. Qed.

Lemma toMonthlyRate_nonpos a : a <= 0 -> toMonthlyRate a = 0.
Proof. intros H; unfold toMonthlyRate; case_cmp; lra. Qed.

Lemma toMonthlyRate_nonneg a : 0 <= toMonthlyRate a.
Proof. unfold toMonthlyRate; case_cmp; lra. Qed.

Lemma toMonthlyRate_zero_iff a : toMonthlyRate a = 0 <-> a <= 0.
Proof. unfold toMonthlyRate; case_cmp; split; intros; lra. Qed.


(** ** Affordability *)

(** C5 (amended): in exact real arithmetic the affordability function
    returns the product [monthlyIncome * DEBT_TO_INCOME_RATIO], with
    [DEBT_TO_INCOME_RATIO = 1/3], which is [monthlyIncome / 3], for a
    positive income, and [0] otherwise. *)
Theorem C5_affordability (income : R) :
  DEBT_TO_INCOME_RATIO = 1 / 3 /\
  (0 < income ->
     calculateMaxMonthlyInstallment income = income * DEBT_TO_INCOME_RATIO /\
     calculateMaxMonthlyInstallment income = income / 3) /\
  (income <= 0 -> calculateMaxMonthlyInstallment income = 0).
Proof.
  unfold calculateMaxMonthlyInstallment, DEBT_TO_INCOME_RATIO.
  split; [reflexivity|].
  split; intros H; case_cmp; try split; lra.
Qed.

Lemma C5_affordability_witness :
  (0 < 2600 /\ calculateMaxMonthlyInstallment 2600 = 2600 / 3) /\
  (-5 <= 0 /\ calculateMaxMonthlyInstallment (-5) = 0).
Proof.
  destruct (C5_affordability 2600) as (_ & Hpos & _).
  destruct (C5_affordability (-5)) as (_ & _ & Hneg).
  split; split.
  - lra.
  - apply Hpos. lra.
  - lra.
  - apply Hneg. lra.
Defined.

(** ** Single-rate capacity *)

Lemma single_rate_guard (M a : R) (n : Z) :
  (n <= 0)%Z \/ M <= 0 -> calculateLoanPrincipalWithSingleRate M a n = 0.
Proof.
  intros H; unfold calculateLoanPrincipalWithSingleRate.
  destruct (Z.leb_spec n 0); simpl; [reflexivity|].
  destruct (Rleb M 0) eqn:E; [reflexivity|].
  apply Rleb_false in E. destruct H; [lia | lra].
Qed.

Lemma single_rate_body (M a : R) (n : Z) :
  (0 < n)%Z -> 0 < M ->
  calculateLoanPrincipalWithSingleRate M a n =
    if Reqb (toMonthlyRate a) 0 then M * IZR n
    else M / (toMonthlyRate a /
              (1 - powerRZ (1 + toMonthlyRate a) (- n))).
Proof.
  intros Hn HM; unfold calculateLoanPrincipalWithSingleRate.
  destruct (Z.leb_spec n 0); [lia|]; simpl.
  destruct (Rleb M 0) eqn:E; [apply Rleb_true in E; lra | reflexivity].
Qed.

(** C1: contract of the single-rate capacity function: [0] on a
    non-positive duration or installment; otherwise [M * n] when the monthly
    rate is [0] (annual rate not positive) and the annuity formula
    [M / (r / (1 - (1+r)^(-n)))] with [r = annualRate/100/12] when the
    annual rate is positive. *)
Theorem C1_single_rate_contract (M a : R) (n : Z) :
  ((n <= 0)%Z \/ M <= 0 -> calculateLoanPrincipalWithSingleRate M a n = 0) /\
  ((0 < n)%Z -> 0 < M -> a <= 0 ->
     toMonthlyRate a = 0 /\
     calculateLoanPrincipalWithSingleRate M a n = M * IZR n) /\
  ((0 < n)%Z -> 0 < M -> 0 < a ->
     let r := a / 100 / 12 in
     toMonthlyRate a = r /\
     calculateLoanPrincipalWithSingleRate M a n =
       M / (r / (1 - powerRZ (1 + r) (- n)))) /\
  ((0 < n)%Z -> 0 < M ->
     calculateLoanPrincipalWithSingleRate M 0 n = M * IZR n).
Proof.
  split; [| split; [| split]].
  - apply single_rate_guard.
  - intros Hn HM Ha; split; [now apply toMonthlyRate_nonpos|].
    rewrite single_rate_body by assumption.
    rewrite toMonthlyRate_nonpos by assumption.
    case_cmp; [reflexivity | contradiction].
  - intros Hn HM Ha r; split; [now apply toMonthlyRate_pos|].
    rewrite single_rate_body by assumption.
    rewrite toMonthlyRate_pos by assumption. fold r.
    case_cmp; [unfold r in *; lra | reflexivity].
  - intros Hn HM. rewrite single_rate_body by assumption.
    rewrite toMonthlyRate_nonpos by lra.
    case_cmp; [reflexivity | contradiction].
Qed.

Lemma C1_single_rate_contract_witness :
  calculateLoanPrincipalWithSingleRate 100 3 0 = 0 /\
  calculateLoanPrincipalWithSingleRate 100 (-1) 12 = 100 * 12 /\
  calculateLoanPrincipalWithSingleRate 100 12 2 =
    100 / (12 / 100 / 12 / (1 - powerRZ (1 + 12 / 100 / 12) (- (2)))) /\
  calculateLoanPrincipalWithSingleRate 100 0 12 = 100 * 12.
Proof.
  destruct (C1_single_rate_contract 100 3 0) as [G _].
  destruct (C1_single_rate_contract 100 (-1) 12) as (_ & Z0 & _).
  destruct (C1_single_rate_contract 100 12 2) as (_ & _ & P & _).
  destruct (C1_single_rate_contract 100 0 12) as (_ & _ & _ & Z1).
  split; [| split; [| split]].
  - apply G; left; lia.
  - apply Z0; lia || lra.
  - apply P; lia || lra.
  - apply Z1; lia || lra.
Defined.

(** ** Multi-rate capacity *)

Lemma pvRun_app l1 l2 st : pvRun (l1 ++ l2) st = pvRun l2 (pvRun l1 st).
Proof. apply fold_left_app. Qed.

Lemma pvRun_monthsCount l : forall st,
  monthsCount (pvRun l st) = (monthsCount st + Z.of_nat (length l))%Z.
Proof.
  induction l as [|r l IH]; intros st; simpl.
  - lia.
  - unfold pvRun in IH. rewrite IH. simpl. lia.
Qed.

Lemma pvRun_pvFactorSum l : forall st,
  pvFactorSum (pvRun l st) =
    pvFactorSum st + sumR (discountFactorsFrom (discountFactor st) l).
Proof.
  induction l as [|r l IH]; intros st; simpl.
  - lra.
  - unfold pvRun in IH. rewrite IH. simpl. lra.
Qed.

Lemma pvInnerLoop_run iters r T : forall st,
  pvInnerLoop iters r T st =
    pvRun (firstn (Z.to_nat (T - monthsCount st)) (repeat r iters)) st.
Proof.
  induction iters as [|k IH]; intros st; simpl.
  - now rewrite firstn_nil.
  - destruct (Z.geb_spec (monthsCount st) T) as [Hge|Hlt].
    + replace (Z.to_nat (T - monthsCount st)) with O by lia. reflexivity.
    + rewrite IH. simpl monthsCount.
      replace (Z.to_nat (T - monthsCount st))
        with (S (Z.to_nat (T - (monthsCount st + 1)))) by lia.
      reflexivity.
Qed.

Lemma pvOuterLoop_run ps T : forall st,
  pvOuterLoop ps T st =
    pvRun (firstn (Z.to_nat (T - monthsCount st)) (expandPeriods ps)) st.
Proof.
  induction ps as [|p ps IH]; intros st; simpl.
  - now rewrite firstn_nil.
  - rewrite pvInnerLoop_run, firstn_app, pvRun_app, repeat_length.
    fold (periodMonths p).
    set (k := Z.to_nat (T - monthsCount st)).
    set (st' := pvRun (firstn k (repeat (toMonthlyRate (rate p)) (periodMonths p))) st).
    assert (Hmc : monthsCount st' =
                  (monthsCount st + Z.of_nat (Nat.min k (periodMonths p)))%Z).
    { unfold st'. now rewrite pvRun_monthsCount, length_firstn, repeat_length. }
    destruct (Z.geb_spec (monthsCount st') T) as [Hge|Hlt].
    + replace (k - periodMonths p)%nat with O by lia. reflexivity.
    + rewrite IH. f_equal. f_equal. lia.
Qed.

Lemma expandPeriods_length ps :
  Z.of_nat (length (expandPeriods ps)) = sumPeriodMonths ps.
Proof.
  induction ps as [|p ps IH]; simpl; [reflexivity|].
  rewrite length_app, repeat_length, Nat2Z.inj_add, IH.
  unfold periodMonths. lia.
Qed.

Lemma sumPeriodYears_shift ps : forall acc,
  fold_left (fun sum p => (sum + years p)%Z) ps acc =
    (acc + sumPeriodYears ps)%Z.
Proof.
  unfold sumPeriodYears.
  induction ps as [|p ps IH]; intros acc; simpl; [lia|].
  rewrite (IH (acc + years p)%Z), (IH (years p)). lia.
Qed.

Lemma sumPeriodYears_cons p ps :
  sumPeriodYears (p :: ps) = (years p + sumPeriodYears ps)%Z.
Proof. unfold sumPeriodYears at 1; simpl. now rewrite sumPeriodYears_shift. Qed.

Lemma sumPeriodMonths_years ps :
  Forall (fun p => (0 <= years p)%Z) ps ->
  sumPeriodMonths ps = (sumPeriodYears ps * 12)%Z.
Proof.
  induction 1 as [|p ps Hp _ IH]; [reflexivity|].
  rewrite sumPeriodYears_cons. simpl. rewrite IH. lia.
Qed.

Lemma sumPeriodMonths_ge ps : (sumPeriodYears ps * 12 <= sumPeriodMonths ps)%Z.
Proof.
  induction ps as [|p ps IH]; [reflexivity|].
  rewrite sumPeriodYears_cons. cbn [sumPeriodMonths fold_right].
  fold (sumPeriodMonths ps). lia.
Qed.

Lemma discountFactorsFrom_length l : forall d,
  length (discountFactorsFrom d l) = length l.
Proof. induction l; intros d; simpl; [|rewrite IHl]; reflexivity. Qed.

Lemma discountFactorsFrom_nth l : forall d k,
  (k < length l)%nat ->
  nth k (discountFactorsFrom d l) 0 =
    match k with
    | O => d
    | S j => nth j (discountFactorsFrom d l) 0
    end / (1 + nth k l 0).
Proof.
  induction l as [|r l IH]; intros d k Hk; simpl in *; [lia|].
  destruct k as [|[|j]]; try reflexivity.
  - rewrite IH by lia. reflexivity.
  - rewrite IH by lia. reflexivity.
Qed.

Lemma expandPeriods_explicit ps :
  flat_map
    (fun p =>
       repeat (if Rlt_dec 0 (rate p) then rate p / 100 / 12 else 0)
         (Z.to_nat (years p * 12)))
    ps
  = expandPeriods ps.
Proof.
  unfold expandPeriods, periodMonths, toMonthlyRate, Rgtb.
  induction ps as [|p ps IH]; [reflexivity|].
  cbn [flat_map]. rewrite IH. f_equal.
  destruct (Rlt_dec 0 (rate p)); reflexivity.
Qed.

(** C2: contract of the multi-rate capacity function: [0] on a non-positive
    duration or installment or an empty period list; otherwise the
    installment times the sum of the monthly discount factors over the
    schedule in which every period contributes [years * 12] months at the
    monthly rate [rate / 100 / 12] (0 for a rate that is not positive):
    the factor starts at 1, is divided by [1 + monthly rate] of the
    month's period, is carried across period boundaries, and exactly
    [min totalMonths (months covered by the periods)] months are
    accumulated. *)
Theorem C2_multi_rate_contract (M : R) (ps : list RatePeriod) (T : Z) :
  ((T <= 0)%Z \/ M <= 0 \/ ps = [] ->
     calculateLoanPrincipalWithMultipleRates M ps T = 0) /\
  ((0 < T)%Z -> 0 < M -> ps <> [] ->
     let schedule :=
       flat_map
         (fun p =>
            repeat (if Rlt_dec 0 (rate p) then rate p / 100 / 12 else 0)
              (Z.to_nat (years p * 12)))
         ps in
     let months := firstn (Z.to_nat T) schedule in
     let factors := discountFactorsFrom 1 months in
     calculateLoanPrincipalWithMultipleRates M ps T = M * sumR factors /\
     (forall k, (k < length months)%nat ->
        nth k factors 0 =
          match k with O => 1 | S j => nth j factors 0 end
          / (1 + nth k months 0)) /\
     monthsCount (pvOuterLoop ps T pvInit) = Z.min T (sumPeriodMonths ps) /\
     Z.of_nat (length factors) = Z.min T (sumPeriodMonths ps) /\
     (Forall (fun p => (0 <= years p)%Z) ps ->
        sumPeriodMonths ps = (sumPeriodYears ps * 12)%Z)).
Proof.
  split.
  - intros H; unfold calculateLoanPrincipalWithMultipleRates.
    destruct (Z.leb_spec T 0); simpl; [reflexivity|].
    destruct (Rleb M 0) eqn:E; simpl; [reflexivity|].
    apply Rleb_false in E.
    destruct ps; simpl; [reflexivity|].
    destruct H as [H|[H|H]]; [lia | lra | discriminate].
  - intros HT HM Hps schedule months factors.
    assert (Hsched : schedule = expandPeriods ps)
      by apply expandPeriods_explicit.
    assert (Hlen : Z.of_nat (length months) = Z.min T (sumPeriodMonths ps)).
    { unfold months. rewrite Hsched, length_firstn, <- expandPeriods_length.
      lia. }
    assert (Hrun : pvOuterLoop ps T pvInit = pvRun months pvInit).
    { rewrite pvOuterLoop_run. simpl monthsCount. rewrite Z.sub_0_r.
      unfold months. now rewrite Hsched. }
    repeat apply conj.
    + unfold calculateLoanPrincipalWithMultipleRates.
      destruct (Z.leb_spec T 0); [lia|]; simpl.
      destruct (Rleb M 0) eqn:E; [apply Rleb_true in E; lra|]; simpl.
      destruct ps; [contradiction|]. cbn [length Nat.eqb].
      rewrite Hrun, pvRun_pvFactorSum. simpl. fold factors. lra.
    + intros k Hk. apply discountFactorsFrom_nth. exact Hk.
    + rewrite Hrun, pvRun_monthsCount. simpl. exact Hlen.
    + unfold factors. now rewrite discountFactorsFrom_length.
    + apply sumPeriodMonths_years.
Qed.

Lemma C2_multi_rate_contract_witness :
  calculateLoanPrincipalWithMultipleRates 100 [] 12 = 0 /\
  calculateLoanPrincipalWithMultipleRates 100 [mkRatePeriod 1 1200] 2 = 75 /\
  let ps := [mkRatePeriod 1 2; mkRatePeriod 1 4] in
  monthsCount (pvOuterLoop ps 18 pvInit) = 18%Z /\
  monthsCount (pvOuterLoop ps 36 pvInit) = 24%Z.
Proof.
  split.
  - apply (proj1 (C2_multi_rate_contract 100 [] 12)). right; right; reflexivity.
  - assert (Hn1 : (0 < 2)%Z) by lia.
    assert (HM : 0 < 100) by lra.
    assert (Hp : [mkRatePeriod 1 1200] <> []) by discriminate.
    destruct (proj2 (C2_multi_rate_contract 100 [mkRatePeriod 1 1200] 2)
                Hn1 HM Hp) as (Hval & _).
    split.
    + rewrite Hval. cbn [flat_map rate years app].
      change (Z.to_nat (1 * 12)) with 12%nat. change (Z.to_nat 2) with 2%nat.
      cbn [repeat app firstn discountFactorsFrom sumR fold_right].
      destruct (Rlt_dec 0 1200) as [_|Hn]; [field | lra].
    + intros ps.
      destruct (proj2 (C2_multi_rate_contract 100 ps 18))
        as (_ & _ & Hcnt & _); [lia | lra | discriminate |].
      destruct (proj2 (C2_multi_rate_contract 100 ps 36))
        as (_ & _ & Hcnt' & _); [lia | lra | discriminate |].
      split; [exact Hcnt | exact Hcnt'].
Defined.

(** ** Amortization builder *)

Lemma capitalAfter_nonneg M rates m c :
  0 <= capitalAfter (amortizationRow M rates m c).
Proof. simpl. apply Rmax_r. Qed.

Lemma amortizationLoop_O M rates m c : amortizationLoop O M rates m c = [].
Proof. reflexivity. Qed.

Lemma amortizationLoop_S_stop n M rates m c :
  capitalAfter (amortizationRow M rates m c) <= 0 ->
  amortizationLoop (S n) M rates m c = [amortizationRow M rates m c].
Proof.
  intros H. cbn [amortizationLoop].
  destruct (Rleb _ 0) eqn:E; [reflexivity | apply Rleb_false in E; lra].
Qed.

Lemma amortizationLoop_S_go n M rates m c :
  0 < capitalAfter (amortizationRow M rates m c) ->
  amortizationLoop (S n) M rates m c =
    amortizationRow M rates m c
    :: amortizationLoop n M rates (m + 1)%Z
         (capitalAfter (amortizationRow M rates m c)).
Proof.
  intros H. cbn [amortizationLoop].
  destruct (Rleb _ 0) eqn:E; [apply Rleb_true in E; lra | reflexivity].
Qed.

(** Opens one pass of the loop over [n] more passes and splits on its
    [break]. *)
Ltac loop_pass n M rates m c r0 E :=
  destruct (Rle_dec (capitalAfter (amortizationRow M rates m c)) 0) as [E|E];
  [ rewrite (amortizationLoop_S_stop n M rates m c E) in *
  | apply Rnot_le_lt in E;
    rewrite (amortizationLoop_S_go n M rates m c E) in * ];
  set (r0 := amortizationRow M rates m c) in *.

(** Every row of the loop is the loop body run on the capital the previous
    row left. *)
Lemma amortizationLoop_rows iters M rates : forall m c k row,
  nth_error (amortizationLoop iters M rates m c) k = Some row ->
  row = amortizationRow M rates (m + Z.of_nat k) (capitalBefore row) /\
  (k = O -> capitalBefore row = c) /\
  (forall next,
     nth_error (amortizationLoop iters M rates m c) (S k) = Some next ->
     capitalBefore next = capitalAfter row).
Proof.
  induction iters as [|n IH]; intros m c k row Hk.
  - rewrite amortizationLoop_O in Hk. destruct k; discriminate.
  - loop_pass n M rates m c r0 E.
    + destruct k as [|k]; cbn [nth_error] in Hk; [|destruct k; discriminate].
      injection Hk as <-. rewrite Z.add_0_r.
      repeat apply conj; [reflexivity | reflexivity | discriminate].
    + destruct k as [|k]; cbn [nth_error] in Hk.
      * injection Hk as <-. rewrite Z.add_0_r.
        repeat apply conj; [reflexivity | reflexivity |].
        intros next Hn.
        destruct (IH (m + 1)%Z (capitalAfter r0) O next Hn) as (_ & H0 & _).
        now apply H0.
      * destruct (IH _ _ _ _ Hk) as (Hrow & _ & Hnext).
        replace (m + Z.of_nat (S k))%Z with (m + 1 + Z.of_nat k)%Z by lia.
        repeat apply conj; [exact Hrow | discriminate | exact Hnext].
Qed.

Lemma amortizationLoop_length iters M rates : forall m c,
  (length (amortizationLoop iters M rates m c) <= iters)%nat /\
  ((0 < iters)%nat -> (1 <= length (amortizationLoop iters M rates m c))%nat).
Proof.
  induction iters as [|n IH]; intros m c.
  - rewrite amortizationLoop_O. simpl. lia.
  - loop_pass n M rates m c r0 E; cbn [length]; [lia|].
    destruct (IH (m + 1)%Z (capitalAfter r0)). lia.
Qed.

(** A row that leaves no capital is the last one. *)
Lemma amortizationLoop_stop iters M rates : forall m c k row,
  nth_error (amortizationLoop iters M rates m c) k = Some row ->
  capitalAfter row <= 0 ->
  length (amortizationLoop iters M rates m c) = S k.
Proof.
  induction iters as [|n IH]; intros m c k row Hk Hle.
  - rewrite amortizationLoop_O in Hk. destruct k; discriminate.
  - loop_pass n M rates m c r0 E.
    + destruct k as [|k]; cbn [nth_error] in Hk; [reflexivity | destruct k; discriminate].
    + destruct k as [|k]; cbn [nth_error] in Hk.
      * injection Hk as <-. lra.
      * cbn [length]. f_equal. eapply IH; eassumption.
Qed.

(** A table shorter than the loop bound ends on a row that leaves no
    capital. *)
Lemma amortizationLoop_short iters M rates : forall m c,
  (length (amortizationLoop iters M rates m c) < iters)%nat ->
  exists row,
    nth_error (amortizationLoop iters M rates m c)
      (length (amortizationLoop iters M rates m c) - 1) = Some row /\
    capitalAfter row <= 0.
Proof.
  induction iters as [|n IH]; intros m c Hlt.
  - rewrite amortizationLoop_O in Hlt. cbn [length] in Hlt. lia.
  - loop_pass n M rates m c r0 E.
    + exists r0. cbn [length Nat.sub nth_error]. split; [reflexivity | exact E].
    + cbn [length] in Hlt.
      destruct (IH (m + 1)%Z (capitalAfter r0)) as (row & Hrow & Hle); [lia|].
      exists row. split; [|exact Hle].
      destruct (amortizationLoop_length n M rates (m + 1)%Z (capitalAfter r0))
        as [_ Hpos].
      cbn [length Nat.sub]. rewrite Nat.sub_0_r.
      destruct (length (amortizationLoop n M rates (m + 1)%Z (capitalAfter r0)))
        as [|j] eqn:El; [lia|].
      replace (S j - 1)%nat with j in Hrow by lia. exact Hrow.
Qed.

Lemma buildAmortizationTable_guard P M rates T :
  P <= 0 \/ (T <= 0)%Z -> buildAmortizationTable P M rates T = [].
Proof.
  intros H; unfold buildAmortizationTable.
  destruct (Rleb P 0) eqn:E; simpl; [reflexivity|].
  apply Rleb_false in E.
  destruct (Z.leb_spec T 0); [reflexivity|]. destruct H; [lra | lia].
Qed.

Lemma buildAmortizationTable_body P M rates T :
  0 < P -> (0 < T)%Z ->
  buildAmortizationTable P M rates T =
    amortizationLoop (Z.to_nat T) M rates 1%Z P.
Proof.
  intros HP HT; unfold buildAmortizationTable.
  destruct (Rleb P 0) eqn:E; [apply Rleb_true in E; lra|]; simpl.
  destruct (Z.leb_spec T 0); [lia | reflexivity].
Qed.

(** C3: every row [k] of a table the builder produces has
    [interest = capitalBefore * monthlyRates[k-1]] (rate 0 out of range),
    [amortization = installment - interest],
    [capitalAfter = max (capitalBefore - amortization) 0]; the first row
    starts from the principal and every later row from the capital the
    previous row left. *)
Theorem C3_amortization_rows (P M : R) (rates : list R) (T : Z)
    (k : nat) (row : AmortizationRow) :
  nth_error (buildAmortizationTable P M rates T) k = Some row ->
  month row = (Z.of_nat k + 1)%Z /\
  installment row = M /\
  interest row = capitalBefore row * nth k rates 0 /\
  amortization row = installment row - interest row /\
  capitalAfter row = Rmax (capitalBefore row - amortization row) 0 /\
  (k = O -> capitalBefore row = P) /\
  (forall next,
     nth_error (buildAmortizationTable P M rates T) (S k) = Some next ->
     capitalBefore next = capitalAfter row).
Proof.
  intros Hk.
  destruct (Rle_dec P 0) as [HP|HP].
  { rewrite buildAmortizationTable_guard in Hk by now left.
    destruct k; discriminate. }
  destruct (Z_le_dec T 0) as [HT|HT].
  { rewrite buildAmortizationTable_guard in Hk by now right.
    destruct k; discriminate. }
  rewrite buildAmortizationTable_body in * by (lra || lia).
  destruct (amortizationLoop_rows _ _ _ _ _ _ _ Hk) as (Hrow & H0 & Hnext).
  pose proof (f_equal month Hrow) as Hm.
  pose proof (f_equal installment Hrow) as Hi.
  pose proof (f_equal interest Hrow) as Hint.
  pose proof (f_equal amortization Hrow) as Ham.
  pose proof (f_equal capitalAfter Hrow) as Hca.
  cbn [amortizationRow month installment interest amortization capitalAfter]
    in Hm, Hi, Hint, Ham, Hca.
  replace (Z.to_nat (1 + Z.of_nat k - 1)) with k in * by lia.
  rewrite <- Hint in Ham, Hca. rewrite <- Ham in Hca. rewrite <- Hi in Ham at 1.
  replace (1 + Z.of_nat k)%Z with (Z.of_nat k + 1)%Z in Hm by lia.
  repeat apply conj; assumption.
Qed.

Lemma buildAmortizationTable_first P M rates T :
  0 < P -> (0 < T)%Z ->
  nth_error (buildAmortizationTable P M rates T) 0 =
    Some (amortizationRow M rates 1 P).
Proof.
  intros HP HT. rewrite buildAmortizationTable_body by assumption.
  destruct (Z.to_nat T) as [|n] eqn:En; [lia|].
  loop_pass n M rates 1%Z P r0 E; reflexivity.
Qed.

Lemma C3_amortization_rows_witness :
  let table := buildAmortizationTable 100 60 [0; 0] 2 in
  let row := amortizationRow 60 [0; 0] 1 100 in
  nth_error table 0 = Some row /\
  month row = 1%Z /\
  interest row = capitalBefore row * 0 /\
  capitalBefore row = 100.
Proof.
  intros table row.
  assert (H : nth_error table 0 = Some row)
    by (apply buildAmortizationTable_first; [lra | lia]).
  destruct (C3_amortization_rows 100 60 [0; 0] 2 0 row H)
    as (Hm & _ & Hi & _ & _ & H0 & _).
  repeat apply conj; [exact H | exact Hm | exact Hi | now apply H0].
Defined.

(** C6: the builder returns the empty table on a non-positive principal or
    duration; otherwise the table has between 1 and [totalMonths] rows, a
    row with [capitalAfter <= 0] is always the last one, a table shorter
    than [totalMonths] ends on such a row, and in a table of exactly
    [totalMonths] rows every row before the last leaves capital. *)
Theorem C6_amortization_length (P M : R) (rates : list R) (T : Z) :
  let table := buildAmortizationTable P M rates T in
  (P <= 0 \/ (T <= 0)%Z -> table = []) /\
  (0 < P -> (0 < T)%Z ->
     (1 <= Z.of_nat (length table) <= T)%Z /\
     (forall k row,
        nth_error table k = Some row -> capitalAfter row <= 0 ->
        length table = S k) /\
     ((Z.of_nat (length table) < T)%Z ->
        exists row,
          nth_error table (length table - 1) = Some row /\
          capitalAfter row <= 0) /\
     (Z.of_nat (length table) = T ->
        forall k row,
          (S k < length table)%nat -> nth_error table k = Some row ->
          0 < capitalAfter row)).
Proof.
  intros table; split.
  - apply buildAmortizationTable_guard.
  - intros HP HT. unfold table.
    rewrite buildAmortizationTable_body by assumption.
    destruct (amortizationLoop_length (Z.to_nat T) M rates 1%Z P) as [Hle Hge].
    assert (Hstop : forall k row,
              nth_error (amortizationLoop (Z.to_nat T) M rates 1%Z P) k
                = Some row ->
              capitalAfter row <= 0 ->
              length (amortizationLoop (Z.to_nat T) M rates 1%Z P) = S k)
      by apply amortizationLoop_stop.
    repeat apply conj.
    + lia.
    + lia.
    + exact Hstop.
    + intros Hlt. apply amortizationLoop_short. lia.
    + intros _ k row Hk Hrow.
      destruct (Rlt_dec 0 (capitalAfter row)) as [Hpos|Hneg]; [exact Hpos|].
      assert (Hlen := Hstop k row Hrow ltac:(lra)). lia.
Qed.

(** Decides the [break] test of a pass on concrete numbers. *)
Ltac cap_cmp :=
  cbv [capitalAfter capitalBefore amortizationRow Rmax];
  repeat match goal with
  | |- context [Z.to_nat ?z] =>
      let v := eval vm_compute in (Z.to_nat z) in
      change (Z.to_nat z) with v
  end;
  cbn [nth];
  repeat match goal with
  | |- context [Rle_dec ?a ?b] => destruct (Rle_dec a b)
  end; lra.

Lemma C6_amortization_length_witness :
  let table := buildAmortizationTable 100 60 [0; 0; 0] 3 in
  buildAmortizationTable 0 60 [0; 0; 0] 3 = [] /\
  (1 <= Z.of_nat (length table) <= 3)%Z /\
  nth_error table 1 = Some (amortizationRow 60 [0; 0; 0] 2 (100 - 60)) /\
  length table = 2%nat.
Proof.
  intros table.
  destruct (C6_amortization_length 0 60 [0; 0; 0] 3) as [Hguard _].
  destruct (C6_amortization_length 100 60 [0; 0; 0] 3) as [_ Hbody].
  destruct Hbody as (Hlen & Hstop & _); [lra | lia |].
  assert (Hrow : nth_error table 1 =
                 Some (amortizationRow 60 [0; 0; 0] 2 (100 - 60))).
  { unfold table. rewrite buildAmortizationTable_body by (lra || lia).
    change (Z.to_nat 3) with 3%nat.
    rewrite amortizationLoop_S_go by cap_cmp.
    cbn [nth_error].
    replace (capitalAfter (amortizationRow 60 [0; 0; 0] 1 100))
      with (100 - 60) by cap_cmp.
    rewrite amortizationLoop_S_stop by cap_cmp. reflexivity. }
  repeat apply conj.
  - apply Hguard. left; lra.
  - apply Hlen.
  - apply Hlen.
  - exact Hrow.
  - apply (Hstop 1%nat _ Hrow). cap_cmp.
Defined.

(** ** The effective mode *)

Lemma effectiveMulti_iff rateMode form :
  effectiveMulti rateMode form = true <->
  rateMode = multi /\ ratePeriods form <> [] /\
  sumPeriodYears (ratePeriods form) = durationYears form.
Proof.
  unfold effectiveMulti, LoanCapacity.periodsMismatch,
    LoanCapacity.periodsYearsTotal, LoanCapacity.usePeriods,
    LoanCapacity.periodsActive.
  destruct rateMode; cbn [RateMode_eqb andb].
  - split; [discriminate | intros (H & _); discriminate].
  - destruct (ratePeriods form) as [|p ps] eqn:Eps; cbn [length Nat.ltb Nat.leb andb].
    + split; [discriminate | intros (_ & H & _); contradiction].
    + rewrite negb_involutive.
      destruct (Z.eqb_spec (sumPeriodYears (p :: ps)) (durationYears form)).
      * split; [|reflexivity]. intros _. repeat split; [discriminate | assumption].
      * split; [discriminate | intros (_ & _ & H); contradiction].
Qed.

(** ** Rate-vector expansion *)

Lemma ratesInnerLoop_run iters r T : forall st,
  ratesInnerLoop iters r T st =
    let l := firstn (Z.to_nat (T - monthIdx st)) (repeat r iters) in
    {| monthlyRatesAcc := monthlyRatesAcc st ++ l;
       monthIdx := (monthIdx st + Z.of_nat (length l))%Z |}.
Proof.
  induction iters as [|k IH]; intros [acc idx]; cbn [ratesInnerLoop].
  - cbn. rewrite firstn_nil, app_nil_r. cbn. now rewrite Z.add_0_r.
  - cbn [monthIdx monthlyRatesAcc] in *.
    destruct (Z.ltb_spec idx T) as [Hlt|Hge].
    + rewrite IH. cbn [monthIdx monthlyRatesAcc repeat].
      replace (Z.to_nat (T - idx)) with (S (Z.to_nat (T - (idx + 1)))) by lia.
      cbn [firstn length]. rewrite <- app_assoc. cbn [app]. f_equal. lia.
    + replace (Z.to_nat (T - idx)) with O by lia.
      cbn. rewrite app_nil_r. now rewrite Z.add_0_r.
Qed.

Lemma ratesOuterLoop_run ps T : forall st,
  ratesOuterLoop ps T st =
    let l := firstn (Z.to_nat (T - monthIdx st)) (expandPeriods ps) in
    {| monthlyRatesAcc := monthlyRatesAcc st ++ l;
       monthIdx := (monthIdx st + Z.of_nat (length l))%Z |}.
Proof.
  induction ps as [|p ps IH]; intros st; cbn [ratesOuterLoop expandPeriods flat_map].
  - destruct st as [acc idx]. cbn. rewrite firstn_nil, app_nil_r. cbn.
    now rewrite Z.add_0_r.
  - rewrite ratesInnerLoop_run. cbv zeta. fold (periodMonths p).
    fold (expandPeriods ps).
    set (k := Z.to_nat (T - monthIdx st)).
    set (r := toMonthlyRate (rate p)).
    rewrite firstn_app, repeat_length, length_app, !length_firstn, repeat_length.
    cbn [monthIdx].
    destruct (Z.geb_spec
                (monthIdx st + Z.of_nat (Nat.min k (periodMonths p))) T)
      as [Hge|Hlt].
    + replace (k - periodMonths p)%nat with O by lia.
      cbn [firstn]. rewrite app_nil_r. cbn [length].
      f_equal. lia.
    + rewrite IH. cbn [monthIdx monthlyRatesAcc]. cbv zeta.
      replace (Z.to_nat
                 (T - (monthIdx st + Z.of_nat (Nat.min k (periodMonths p)))))
        with (k - periodMonths p)%nat by lia.
      rewrite <- app_assoc, length_firstn. f_equal. lia.
Qed.

Lemma buildMonthlyRatesArray_multi ps a T :
  buildMonthlyRatesArray multi ps a T =
    Some (firstn (Z.to_nat T) (expandPeriods ps)).
Proof.
  unfold buildMonthlyRatesArray. cbn [RateMode_eqb].
  rewrite ratesOuterLoop_run. cbn. now rewrite Z.sub_0_r.
Qed.

Lemma buildMonthlyRatesArray_single ps a T :
  (0 <= T <= MAX_ARRAY_LENGTH)%Z ->
  buildMonthlyRatesArray single ps a T =
    Some (repeat (toMonthlyRate a) (Z.to_nat T)).
Proof.
  intros [H0 H1]. unfold buildMonthlyRatesArray. cbn [RateMode_eqb].
  destruct (Z.leb_spec 0 T); [|lia].
  destruct (Z.leb_spec T MAX_ARRAY_LENGTH); [reflexivity | lia].
Qed.

(** A short period list makes a short rate vector: one year of periods for
    a two-year loan yields 12 entries, not 24. *)
Lemma C9_rate_vector_short_counterexample :
  exists l,
    buildMonthlyRatesArray multi [mkRatePeriod 1 2] 3.8 24 = Some l /\
    length l = 12%nat /\ Z.of_nat (length l) <> 24%Z.
Proof.
  eexists. split; [apply buildMonthlyRatesArray_multi|].
  split; [reflexivity | discriminate].
Qed.

(** C9 (amended): in single mode, for a valid array length [totalMonths],
    the rate vector has exactly [totalMonths] entries, all equal to the
    monthly equivalent of the single rate; in multi mode it is the in-order
    expansion of the periods ([years * 12] entries each, at the period's
    monthly rate) truncated at [totalMonths], so it has
    [min totalMonths (months covered by the periods)] entries, which is
    [totalMonths] exactly when the periods cover the duration. *)
Theorem C9_rate_vector (ps : list RatePeriod) (a : R) (T : Z)
    (rateMode : RateMode) (form : FormValues) :
  ((0 <= T <= MAX_ARRAY_LENGTH)%Z ->
     exists l,
       buildMonthlyRatesArray single ps a T = Some l /\
       Z.of_nat (length l) = T /\
       Forall (fun r => r = toMonthlyRate a) l /\
       (0 < a -> toMonthlyRate a = a / 100 / 12) /\
       (a <= 0 -> toMonthlyRate a = 0)) /\
  (exists l,
     buildMonthlyRatesArray multi ps a T = Some l /\
     l = firstn (Z.to_nat T)
           (flat_map
              (fun p => repeat (toMonthlyRate (rate p))
                          (Z.to_nat (years p * 12)))
              ps) /\
     ((0 <= T)%Z -> Z.of_nat (length l) = Z.min T (sumPeriodMonths ps)) /\
     ((0 <= T <= sumPeriodMonths ps)%Z -> Z.of_nat (length l) = T)) /\
  ((0 <= durationYears form <= MAX_LOAN_DURATION_YEARS)%Z ->
     exists l,
       LoanCapacity.monthlyRates rateMode form = Some l /\
       Z.of_nat (length l) = LoanCapacity.totalMonths form).
Proof.
  split; [|split].
  - intros HT. eexists. split; [now apply buildMonthlyRatesArray_single|].
    rewrite repeat_length.
    repeat apply conj.
    + lia.
    + apply Forall_forall. intros r Hr. now apply repeat_spec in Hr.
    + apply toMonthlyRate_pos.
    + apply toMonthlyRate_nonpos.
  - eexists. split; [apply buildMonthlyRatesArray_multi|].
    split; [reflexivity|].
    fold (expandPeriods ps).
    rewrite length_firstn, <- expandPeriods_length.
    split; intros; lia.
  - intros HY. unfold LoanCapacity.monthlyRates.
    fold (effectiveMulti rateMode form).
    unfold MAX_LOAN_DURATION_YEARS in HY.
    destruct (effectiveMulti rateMode form) eqn:E.
    + apply effectiveMulti_iff in E. destruct E as (_ & _ & Hsum).
      pose proof (sumPeriodMonths_ge (ratePeriods form)) as Hge.
      eexists. split; [apply buildMonthlyRatesArray_multi|].
      rewrite length_firstn, <- expandPeriods_length in *.
      unfold LoanCapacity.totalMonths. lia.
    + eexists. split.
      * apply buildMonthlyRatesArray_single.
        unfold LoanCapacity.totalMonths, MAX_ARRAY_LENGTH. lia.
      * rewrite repeat_length. unfold LoanCapacity.totalMonths. lia.
Qed.

Lemma C9_rate_vector_witness :
  let ps := [mkRatePeriod 1 2; mkRatePeriod 2 4] in
  let form := mkForm 2600 3.8 3 ps in
  (exists l,
     buildMonthlyRatesArray single ps 3.8 24 = Some l /\
     Z.of_nat (length l) = 24%Z) /\
  (exists l,
     buildMonthlyRatesArray multi ps 3.8 24 = Some l /\
     Z.of_nat (length l) = 24%Z) /\
  (exists l,
     LoanCapacity.monthlyRates multi form = Some l /\
     Z.of_nat (length l) = 36%Z).
Proof.
  intros ps form.
  destruct (C9_rate_vector ps 3.8 24 multi form) as (Hs & Hm & Hc).
  split; [|split].
  - destruct Hs as (l & Hl & Hlen & _).
    + unfold MAX_ARRAY_LENGTH; lia.
    + exists l. split; assumption.
  - destruct Hm as (l & Hl & _ & _ & Hlen).
    exists l. split; [exact Hl|]. apply Hlen. cbn. lia.
  - apply Hc. unfold MAX_LOAN_DURATION_YEARS. cbn. lia.
Defined.

(** ** Negative annual rates *)

Lemma zeroNegativeRate_monthly p :
  toMonthlyRate (rate (zeroNegativeRate p)) = toMonthlyRate (rate p).
Proof.
  unfold zeroNegativeRate; cbn [rate].
  destruct (Rgtb 0 (rate p)) eqn:E; [|reflexivity].
  apply Rgtb_true in E.
  rewrite !toMonthlyRate_nonpos by lra. reflexivity.
Qed.

Lemma expandPeriods_zeroNegativeRate ps :
  expandPeriods (map zeroNegativeRate ps) = expandPeriods ps.
Proof.
  induction ps as [|p ps IH]; [reflexivity|].
  cbn [map expandPeriods flat_map]. fold (expandPeriods ps).
  fold (expandPeriods (map zeroNegativeRate ps)).
  rewrite IH, zeroNegativeRate_monthly. reflexivity.
Qed.

(** C10: a negative annual rate is converted to the monthly rate 0 and so
    behaves like rate 0: the single-rate capacity is
    [maxInstallment * totalMonths], the single-mode rate vector holds 0 for
    every month, and negative period rates act as 0 in the multi-rate
    capacity and in the multi-mode rate vector. *)
Theorem C10_negative_rate (a M : R) (T : Z) (ps : list RatePeriod) :
  a < 0 ->
  toMonthlyRate a = 0 /\
  calculateLoanPrincipalWithSingleRate M a T =
    calculateLoanPrincipalWithSingleRate M 0 T /\
  (0 <= M -> (0 <= T)%Z ->
     calculateLoanPrincipalWithSingleRate M a T = M * IZR T) /\
  buildMonthlyRatesArray single ps a T = buildMonthlyRatesArray single ps 0 T /\
  ((0 <= T <= MAX_ARRAY_LENGTH)%Z ->
     buildMonthlyRatesArray single ps a T = Some (repeat 0 (Z.to_nat T))) /\
  calculateLoanPrincipalWithMultipleRates M (map zeroNegativeRate ps) T =
    calculateLoanPrincipalWithMultipleRates M ps T /\
  buildMonthlyRatesArray multi (map zeroNegativeRate ps) a T =
    buildMonthlyRatesArray multi ps a T.
Proof.
  intros Ha.
  assert (Hr : toMonthlyRate a = 0) by (apply toMonthlyRate_nonpos; lra).
  assert (Hr0 : toMonthlyRate 0 = 0) by (apply toMonthlyRate_nonpos; lra).
  repeat apply conj.
  - exact Hr.
  - unfold calculateLoanPrincipalWithSingleRate. now rewrite Hr, Hr0.
  - intros HM HT.
    destruct (Z.eq_dec T 0) as [->|HT0].
    { rewrite single_rate_guard by (left; lia). simpl. lra. }
    destruct (Req_dec_T M 0) as [->|HM0].
    { rewrite single_rate_guard by (right; lra). lra. }
    rewrite single_rate_body by (lia || lra). rewrite Hr.
    destruct (Reqb 0 0) eqn:E; [reflexivity|].
    apply Reqb_false in E. contradiction.
  - unfold buildMonthlyRatesArray. now rewrite Hr, Hr0.
  - intros HT. rewrite buildMonthlyRatesArray_single by assumption.
    now rewrite Hr.
  - unfold calculateLoanPrincipalWithMultipleRates.
    rewrite length_map, !pvOuterLoop_run, expandPeriods_zeroNegativeRate.
    reflexivity.
  - rewrite !buildMonthlyRatesArray_multi, expandPeriods_zeroNegativeRate.
    reflexivity.
Qed.

Lemma C10_negative_rate_witness :
  -1 < 0 /\
  toMonthlyRate (-1) = 0 /\
  calculateLoanPrincipalWithSingleRate 100 (-1) 12 = 100 * 12 /\
  buildMonthlyRatesArray single [] (-1) 12 = Some (repeat 0 12).
Proof.
  assert (H : -1 < 0) by lra.
  destruct (C10_negative_rate (-1) 100 12 [] H)
    as (Hr & _ & Hcap & _ & Hvec & _).
  repeat apply conj.
  - exact H.
  - exact Hr.
  - apply Hcap; [lra | lia].
  - apply Hvec. unfold MAX_ARRAY_LENGTH; lia.
Defined.

(** ** Mode selection *)

Lemma sumPeriodYears_fold_right ps :
  sumPeriodYears ps = fold_right Z.add 0%Z (map years ps).
Proof.
  induction ps as [|p ps IH]; [reflexivity|].
  rewrite sumPeriodYears_cons, IH. reflexivity.
Qed.

(** C4: the effective mode is multi exactly when the chosen mode is multi,
    the period list is not empty and the period years sum to the duration;
    in that case the principal is the multi-rate capacity and the rate
    vector the multi-mode expansion of the periods, and in every other
    case the principal is the single-rate capacity at the form's annual
    rate and the rate vector the single-mode one, both over the maximum
    installment of the income and [durationYears * 12] months. *)
Theorem C4_effective_mode (rateMode : RateMode) (form : FormValues) :
  let M := calculateMaxMonthlyInstallment (monthlyIncome form) in
  let T := (durationYears form * 12)%Z in
  let valid :=
    rateMode = multi /\ ratePeriods form <> [] /\
    fold_right Z.add 0%Z (map years (ratePeriods form)) = durationYears form in
  (effectiveMulti rateMode form = true <-> valid) /\
  (valid ->
     LoanCapacity.maxLoanPrincipal rateMode form =
       calculateLoanPrincipalWithMultipleRates M (ratePeriods form) T /\
     LoanCapacity.monthlyRates rateMode form =
       buildMonthlyRatesArray multi (ratePeriods form) (interestRate form) T) /\
  (~ valid ->
     LoanCapacity.maxLoanPrincipal rateMode form =
       calculateLoanPrincipalWithSingleRate M (interestRate form) T /\
     LoanCapacity.monthlyRates rateMode form =
       buildMonthlyRatesArray single (ratePeriods form) (interestRate form) T).
Proof.
  intros M T valid.
  assert (Hiff : effectiveMulti rateMode form = true <-> valid).
  { unfold valid. rewrite <- sumPeriodYears_fold_right.
    apply effectiveMulti_iff. }
  assert (HP : LoanCapacity.maxLoanPrincipal rateMode form =
               if effectiveMulti rateMode form
               then calculateLoanPrincipalWithMultipleRates M
                      (ratePeriods form) T
               else calculateLoanPrincipalWithSingleRate M
                      (interestRate form) T).
  { unfold LoanCapacity.maxLoanPrincipal.
    change (LoanCapacity.maxMonthlyInstallment form) with M.
    change (LoanCapacity.totalMonths form) with T.
    fold (effectiveMulti rateMode form).
    destruct (Rleb M 0) eqn:E; [|reflexivity].
    apply Rleb_true in E.
    destruct (effectiveMulti rateMode form).
    - unfold calculateLoanPrincipalWithMultipleRates.
      destruct (T <=? 0)%Z; cbn [orb]; [reflexivity|].
      destruct (Rleb M 0) eqn:E'; [reflexivity | apply Rleb_false in E'; lra].
    - symmetry. apply single_rate_guard. now right. }
  assert (HR : LoanCapacity.monthlyRates rateMode form =
               buildMonthlyRatesArray
                 (if effectiveMulti rateMode form then multi else single)
                 (ratePeriods form) (interestRate form) T)
    by reflexivity.
  split; [exact Hiff|]. split.
  - intros Hv. apply Hiff in Hv. rewrite HP, HR, Hv. now split.
  - intros Hv.
    destruct (effectiveMulti rateMode form) eqn:E.
    + exfalso. apply Hv, Hiff. reflexivity.
    + rewrite HP, HR. now split.
Qed.

Lemma C4_effective_mode_witness :
  let valid := mkForm 2600 3.8 20 [mkRatePeriod 10 2; mkRatePeriod 10 4] in
  let short := mkForm 2600 3.8 5 [mkRatePeriod 2 2; mkRatePeriod 2 4] in
  effectiveMulti multi valid = true /\
  LoanCapacity.maxLoanPrincipal multi valid =
    calculateLoanPrincipalWithMultipleRates
      (calculateMaxMonthlyInstallment 2600)
      [mkRatePeriod 10 2; mkRatePeriod 10 4] 240 /\
  LoanCapacity.maxLoanPrincipal multi short =
    calculateLoanPrincipalWithSingleRate
      (calculateMaxMonthlyInstallment 2600) 3.8 60 /\
  LoanCapacity.monthlyRates multi short =
    buildMonthlyRatesArray single [mkRatePeriod 2 2; mkRatePeriod 2 4] 3.8 60.
Proof.
  intros valid short.
  destruct (C4_effective_mode multi valid) as (Hiff & Hmulti & _).
  destruct (C4_effective_mode multi short) as (_ & _ & Hsingle).
  assert (Hv : multi = multi /\ ratePeriods valid <> [] /\
               fold_right Z.add 0%Z (map years (ratePeriods valid))
                 = durationYears valid)
    by (split; [reflexivity | split; [discriminate | reflexivity]]).
  assert (Hs : ~ (multi = multi /\ ratePeriods short <> [] /\
                  fold_right Z.add 0%Z (map years (ratePeriods short))
                    = durationYears short))
    by (intros (_ & _ & H); cbn in H; lia).
  split; [apply Hiff; exact Hv|].
  split; [apply (proj1 (Hmulti Hv))|].
  split; [apply (proj1 (Hsingle Hs)) | apply (proj2 (Hsingle Hs))].
Defined.

(** The example of the specification: a five-year loan with periods that
    sum to four years falls back to single mode. *)
Example effectiveMulti_mismatch :
  effectiveMulti multi
    (mkForm 2600 3.8 5 [mkRatePeriod 2 2; mkRatePeriod 2 4]) = false.
Proof. reflexivity. Qed.

(** ** Level annuities: the closed form and the month-by-month sum *)

Lemma sumR_discount_repeat r n : forall d,
  sumR (discountFactorsFrom d (repeat r n)) =
    d * annuityFactor (/ (1 + r)) n.
Proof.
  induction n as [|k IH]; intros d; cbn [repeat discountFactorsFrom sumR fold_right annuityFactor].
  - lra.
  - fold (sumR (discountFactorsFrom (d / (1 + r)) (repeat r k))).
    rewrite IH. unfold Rdiv. ring.
Qed.

Lemma annuityFactor_zero_rate n : annuityFactor (/ (1 + 0)) n = INR n.
Proof.
  replace (/ (1 + 0)) with 1 by (rewrite Rplus_0_r, Rinv_1; reflexivity).
  induction n as [|k IH]; [reflexivity|].
  cbn [annuityFactor]. rewrite IH, S_INR. ring.
Qed.

Lemma annuityFactor_closed r n :
  0 < r -> annuityFactor (/ (1 + r)) n = (1 - (/ (1 + r)) ^ n) / r.
Proof.
  intros Hr. induction n as [|k IH]; cbn [annuityFactor pow].
  - unfold Rdiv. ring.
  - rewrite IH. field. lra.
Qed.

Lemma annuityFactor_nonneg q n : 0 <= q -> 0 <= annuityFactor q n.
Proof.
  intros Hq. induction n as [|k IH]; cbn [annuityFactor]; [lra | nra].
Qed.



Lemma pow_inv_lt_1 r n : 0 < r -> (0 < n)%nat -> (/ (1 + r)) ^ n < 1.
Proof.
  intros Hr Hn.
  assert (Hq : 0 <= / (1 + r) < 1).
  { split; [left; apply Rinv_0_lt_compat; lra|].
    rewrite <- Rinv_1. apply Rinv_lt_contravar; lra. }
  apply (pow_lt_1_compat _ n Hq Hn).
Qed.

(** The single-rate capacity is the installment times the annuity factor
    of the monthly rate. *)
Lemma single_rate_annuity M a T :
  0 < M -> (0 < T)%Z ->
  calculateLoanPrincipalWithSingleRate M a T =
    M * annuityFactor (/ (1 + toMonthlyRate a)) (Z.to_nat T).
Proof.
  intros HM HT. rewrite single_rate_body by assumption.
  pose proof (toMonthlyRate_nonneg a) as Hr.
  destruct (Reqb (toMonthlyRate a) 0) eqn:E.
  - apply Reqb_true in E. rewrite E, annuityFactor_zero_rate.
    rewrite INR_IZR_INZ, Z2Nat.id by lia. reflexivity.
  - apply Reqb_false in E.
    assert (Hpos : 0 < toMonthlyRate a) by lra.
    rewrite annuityFactor_closed by assumption.
    rewrite powerRZ_neg'. rewrite <- (Z2Nat.id T) at 1 by lia.
    rewrite <- pow_powerRZ, <- pow_inv.
    pose proof (pow_inv_lt_1 (toMonthlyRate a) (Z.to_nat T) Hpos ltac:(lia)).
    field. split; lra.
Qed.






(** * Further properties of the engine *)

(** ** Present value of a stream of installments *)

Lemma sumR_discount_scale l : forall d,
  sumR (discountFactorsFrom d l) = d * pvFactor l.
Proof.
  unfold pvFactor.
  induction l as [|r l IH]; intros d;
    cbn [discountFactorsFrom sumR fold_right].
  - lra.
  - fold (sumR (discountFactorsFrom (d / (1 + r)) l)).
    fold (sumR (discountFactorsFrom (1 / (1 + r)) l)).
    rewrite (IH (d / (1 + r))), (IH (1 / (1 + r))). unfold Rdiv. ring.
Qed.

Lemma pvFactor_nil : pvFactor [] = 0.
Proof. reflexivity. Qed.

Lemma pvFactor_cons r l : pvFactor (r :: l) = (1 + pvFactor l) / (1 + r).
Proof.
  unfold pvFactor at 1. cbn [discountFactorsFrom sumR fold_right].
  fold (sumR (discountFactorsFrom (1 / (1 + r)) l)).
  rewrite sumR_discount_scale. unfold Rdiv. ring.
Qed.

Lemma pvFactor_repeat r n : pvFactor (repeat r n) = annuityFactor (/ (1 + r)) n.
Proof. unfold pvFactor. rewrite sumR_discount_repeat. ring. Qed.

Lemma pvFactor_nonneg l : Forall (fun r => 0 <= r) l -> 0 <= pvFactor l.
Proof.
  induction 1 as [|r l Hr _ IH]; [rewrite pvFactor_nil; lra|].
  rewrite pvFactor_cons. apply Rmult_le_pos; [lra|].
  left. apply Rinv_0_lt_compat. lra.
Qed.

Lemma pvFactor_pos l :
  Forall (fun r => 0 <= r) l -> l <> [] -> 0 < pvFactor l.
Proof.
  intros Hl Hne. destruct l as [|r l]; [contradiction|].
  inversion Hl as [|? ? Hr Hl']; subst.
  rewrite pvFactor_cons. pose proof (pvFactor_nonneg l Hl').
  apply Rmult_lt_0_compat; [lra|]. apply Rinv_0_lt_compat. lra.
Qed.

(** A month at rate [r] started with the present value of the installments
    still due leaves the present value of the installments after it. *)
Lemma pvFactor_step M r l :
  0 <= r ->
  M * pvFactor (r :: l) - (M - M * pvFactor (r :: l) * r) = M * pvFactor l.
Proof. intros Hr. rewrite pvFactor_cons. field. lra. Qed.

Lemma expandPeriods_nonneg ps : Forall (fun r => 0 <= r) (expandPeriods ps).
Proof.
  apply Forall_forall. intros r Hr. unfold expandPeriods in Hr.
  apply in_flat_map in Hr. destruct Hr as (p & _ & Hr).
  apply repeat_spec in Hr. subst r. apply toMonthlyRate_nonneg.
Qed.

Lemma Forall_firstn_nonneg n l :
  Forall (fun r : R => 0 <= r) l -> Forall (fun r => 0 <= r) (firstn n l).
Proof.
  intros H. revert n. induction H as [|r l Hr _ IH]; intros n.
  - rewrite firstn_nil. constructor.
  - destruct n as [|n]; cbn [firstn]; constructor; [exact Hr | apply IH].
Qed.

Lemma multi_rate_pvFactor M ps T :
  (0 < T)%Z -> 0 < M -> ps <> [] ->
  calculateLoanPrincipalWithMultipleRates M ps T =
    M * pvFactor (firstn (Z.to_nat T) (expandPeriods ps)).
Proof.
  intros HT HM Hps. unfold calculateLoanPrincipalWithMultipleRates.
  destruct (Z.leb_spec T 0); [lia|]; cbn [orb].
  destruct (Rleb M 0) eqn:E; [apply Rleb_true in E; lra|]; cbn [orb].
  destruct ps; [contradiction|]. cbn [length Nat.eqb].
  rewrite pvOuterLoop_run, pvRun_pvFactorSum.
  cbn [pvInit monthsCount pvFactorSum discountFactor].
  rewrite Z.sub_0_r. unfold pvFactor. lra.
Qed.

Lemma single_rate_pvFactor M a T :
  0 < M -> (0 < T)%Z ->
  calculateLoanPrincipalWithSingleRate M a T =
    M * pvFactor (repeat (toMonthlyRate a) (Z.to_nat T)).
Proof.
  intros HM HT. rewrite single_rate_annuity, pvFactor_repeat by assumption.
  reflexivity.
Qed.

(** ** Amortizing the present value of the installments *)

Lemma amortizationRow_pv M pre r l :
  0 < M -> 0 <= r -> Forall (fun x => 0 <= x) l ->
  capitalAfter
    (amortizationRow M (pre ++ r :: l) (Z.of_nat (length pre) + 1)
       (M * pvFactor (r :: l)))
  = M * pvFactor l.
Proof.
  intros HM Hr Hl. cbn [amortizationRow capitalAfter].
  replace (Z.to_nat (Z.of_nat (length pre) + 1 - 1)) with (length pre) by lia.
  rewrite nth_middle, pvFactor_step by assumption.
  apply Rmax_left. pose proof (pvFactor_nonneg l Hl). nra.
Qed.

(** Started from the present value of the installments of the months [l]
    that remain, the loop runs through all of them, and every row opens and
    closes on the present value of the installments still due. *)
Lemma amortizationLoop_pv M : 0 < M -> forall l pre,
  Forall (fun x => 0 <= x) l ->
  let table :=
    amortizationLoop (length l) M (pre ++ l) (Z.of_nat (length pre) + 1)
      (M * pvFactor l) in
  length table = length l /\
  forall j row,
    nth_error table j = Some row ->
    capitalBefore row = M * pvFactor (skipn j l) /\
    capitalAfter row = M * pvFactor (skipn (S j) l).
Proof.
  intros HM. induction l as [|r l IH]; intros pre Hl; cbv zeta.
  - rewrite amortizationLoop_O. split; [reflexivity|].
    intros [|j] row H; discriminate.
  - inversion Hl as [|? ? Hr Hl']; subst.
    pose proof (amortizationRow_pv M pre r l HM Hr Hl') as Hca.
    cbn [length].
    set (m := (Z.of_nat (length pre) + 1)%Z) in *.
    set (c := M * pvFactor (r :: l)) in *.
    destruct l as [|r' l'].
    + rewrite amortizationLoop_S_stop
        by (rewrite Hca, pvFactor_nil; lra).
      split; [reflexivity|].
      intros [|[|j]] row H; try discriminate.
      injection H as <-. cbn [skipn]. split; [reflexivity | exact Hca].
    + assert (Hpos : 0 < pvFactor (r' :: l'))
        by (apply pvFactor_pos; [assumption | discriminate]).
      rewrite amortizationLoop_S_go by (rewrite Hca; nra).
      rewrite Hca.
      specialize (IH (pre ++ [r]) Hl'). cbv zeta in IH.
      rewrite <- app_assoc in IH. cbn [app] in IH.
      replace (Z.of_nat (length (pre ++ [r])) + 1)%Z with (m + 1)%Z in IH
        by (rewrite length_app; cbn [length]; unfold m; lia).
      destruct IH as [IHlen IHrows].
      split; [cbn [length] in *; now rewrite IHlen|].
      intros [|j] row H.
      * injection H as <-. cbn [skipn]. split; [reflexivity | exact Hca].
      * cbn [nth_error] in H. apply IHrows in H. exact H.
Qed.

(** X1: a principal equal to the present value of the installments over a
    list of non-negative monthly rates is amortized in exactly as many rows
    as there are months; every row closes on the present value of the
    installments still due, and the last row closes on 0. *)
Theorem amortization_of_present_value (M : R) (rates : list R) :
  0 < M -> Forall (fun r => 0 <= r) rates -> rates <> [] ->
  let table :=
    buildAmortizationTable (M * pvFactor rates) M rates
      (Z.of_nat (length rates)) in
  length table = length rates /\
  (forall j row,
     nth_error table j = Some row ->
     capitalBefore row = M * pvFactor (skipn j rates) /\
     capitalAfter row = M * pvFactor (skipn (S j) rates)) /\
  (exists row,
     nth_error table (length rates - 1) = Some row /\ capitalAfter row = 0).
Proof.
  intros HM Hr Hne table.
  assert (Hlen : (0 < length rates)%nat)
    by (destruct rates; [contradiction | cbn; lia]).
  pose proof (pvFactor_pos rates Hr Hne) as Hpv.
  assert (Htab : table =
            amortizationLoop (length rates) M ([] ++ rates)
              (Z.of_nat (length (@nil R)) + 1) (M * pvFactor rates)).
  { unfold table. rewrite buildAmortizationTable_body by (nra || lia).
    now rewrite Nat2Z.id. }
  destruct (amortizationLoop_pv M HM rates [] Hr) as [Hl Hrows].
  rewrite <- Htab in Hl, Hrows.
  split; [exact Hl | split; [exact Hrows|]].
  destruct (nth_error table (length rates - 1)) as [row|] eqn:E.
  - exists row. split; [reflexivity|].
    destruct (Hrows _ _ E) as [_ Hca]. rewrite Hca.
    rewrite skipn_all2 by lia. rewrite pvFactor_nil. ring.
  - apply nth_error_None in E. lia.
Qed.

Lemma amortization_of_present_value_witness :
  let rates := [0; 0] in
  let table := buildAmortizationTable (100 * pvFactor rates) 100 rates 2 in
  length table = 2%nat /\
  exists row, nth_error table 1 = Some row /\ capitalAfter row = 0.
Proof.
  intros rates table.
  destruct (amortization_of_present_value 100 rates) as (Hlen & _ & Hlast).
  - lra.
  - repeat constructor; lra.
  - discriminate.
  - split; [exact Hlen | exact Hlast].
Defined.

(** ** The component: principal and table agree *)

Lemma maxMonthlyInstallment_pos form :
  0 < monthlyIncome form -> 0 < LoanCapacity.maxMonthlyInstallment form.
Proof.
  intros H. unfold LoanCapacity.maxMonthlyInstallment,
    calculateMaxMonthlyInstallment, DEBT_TO_INCOME_RATIO.
  destruct (Rgtb (monthlyIncome form) 0) eqn:E;
    [lra | apply Rgtb_false in E; lra].
Qed.

(** With a positive income and duration the component's rate vector has one
    non-negative entry per month and the principal is the present value of
    the installments over it, in either mode. *)
Lemma component_rates_and_principal rateMode form :
  0 < monthlyIncome form -> (0 < durationYears form)%Z ->
  (LoanCapacity.totalMonths form <= MAX_ARRAY_LENGTH)%Z ->
  exists rates,
    LoanCapacity.monthlyRates rateMode form = Some rates /\
    Z.of_nat (length rates) = LoanCapacity.totalMonths form /\
    Forall (fun r => 0 <= r) rates /\
    LoanCapacity.maxLoanPrincipal rateMode form =
      LoanCapacity.maxMonthlyInstallment form * pvFactor rates.
Proof.
  intros Hinc Hdur Hmax.
  pose proof (maxMonthlyInstallment_pos form Hinc) as HM.
  unfold LoanCapacity.monthlyRates, LoanCapacity.maxLoanPrincipal.
  fold (effectiveMulti rateMode form).
  set (M := LoanCapacity.maxMonthlyInstallment form) in *.
  set (T := LoanCapacity.totalMonths form) in *.
  assert (HT : (0 < T)%Z) by (unfold T, LoanCapacity.totalMonths; lia).
  destruct (Rleb M 0) eqn:E; [apply Rleb_true in E; lra|].
  destruct (effectiveMulti rateMode form) eqn:Eeff.
  - apply effectiveMulti_iff in Eeff. destruct Eeff as (_ & Hne & Hsum).
    pose proof (sumPeriodMonths_ge (ratePeriods form)) as Hge.
    exists (firstn (Z.to_nat T) (expandPeriods (ratePeriods form))).
    repeat apply conj.
    + apply buildMonthlyRatesArray_multi.
    + rewrite length_firstn, <- expandPeriods_length in *.
      unfold T, LoanCapacity.totalMonths in *. lia.
    + apply Forall_firstn_nonneg, expandPeriods_nonneg.
    + now apply multi_rate_pvFactor.
  - exists (repeat (toMonthlyRate (interestRate form)) (Z.to_nat T)).
    repeat apply conj.
    + apply buildMonthlyRatesArray_single. lia.
    + rewrite repeat_length. lia.
    + apply Forall_forall. intros r Hr. apply repeat_spec in Hr. subst r.
      apply toMonthlyRate_nonneg.
    + now apply single_rate_pvFactor.
Qed.



(** ** Bounds on the capacity *)


Lemma annuityFactor_le_count q n : 0 <= q <= 1 -> annuityFactor q n <= INR n.
Proof.
  intros Hq. induction n as [|k IH]; [cbn; lra|].
  rewrite S_INR. cbn [annuityFactor].
  pose proof (annuityFactor_nonneg q k (proj1 Hq)). nra.
Qed.









(** ** When the component has a result to show *)


Lemma component_principal_zero rateMode form :
  monthlyIncome form <= 0 \/ (durationYears form <= 0)%Z ->
  LoanCapacity.maxLoanPrincipal rateMode form = 0.
Proof.
  intros H. unfold LoanCapacity.maxLoanPrincipal,
    LoanCapacity.maxMonthlyInstallment, calculateMaxMonthlyInstallment.
  destruct (Rgtb (monthlyIncome form) 0) eqn:Einc.
  2:{ destruct (Rleb 0 0) eqn:E; [reflexivity | apply Rleb_false in E; lra]. }
  apply Rgtb_true in Einc. destruct H as [H|H]; [lra|].
  destruct (Rleb _ 0); [reflexivity|].
  assert (HT : (LoanCapacity.totalMonths form <= 0)%Z)
    by (unfold LoanCapacity.totalMonths; lia).
  destruct (_ && _).
  - unfold calculateLoanPrincipalWithMultipleRates.
    destruct (Z.leb_spec (LoanCapacity.totalMonths form) 0); [reflexivity | lia].
  - apply single_rate_guard. now left.
Qed.



(** ** How the capacity scales *)

Lemma single_rate_scale c M a T :
  0 < c ->
  calculateLoanPrincipalWithSingleRate (c * M) a T =
    c * calculateLoanPrincipalWithSingleRate M a T.
Proof.
  intros Hc. unfold calculateLoanPrincipalWithSingleRate.
  destruct (T <=? 0)%Z; cbn [orb]; [lra|].
  destruct (Rleb (c * M) 0) eqn:E1, (Rleb M 0) eqn:E2;
    repeat match goal with
    | H : Rleb _ _ = true |- _ => apply Rleb_true in H
    | H : Rleb _ _ = false |- _ => apply Rleb_false in H
    end; try nra.
  destruct (Reqb (toMonthlyRate a) 0); unfold Rdiv; ring.
Qed.

Lemma multi_rate_scale c M ps T :
  0 < c ->
  calculateLoanPrincipalWithMultipleRates (c * M) ps T =
    c * calculateLoanPrincipalWithMultipleRates M ps T.
Proof.
  intros Hc. unfold calculateLoanPrincipalWithMultipleRates.
  destruct (T <=? 0)%Z; cbn [orb]; [lra|].
  destruct (Rleb (c * M) 0) eqn:E1, (Rleb M 0) eqn:E2;
    repeat match goal with
    | H : Rleb _ _ = true |- _ => apply Rleb_true in H
    | H : Rleb _ _ = false |- _ => apply Rleb_false in H
    end; cbn [orb]; try nra.
  destruct (length ps =? 0)%nat; ring.
Qed.

(** X6: in exact real arithmetic, multiplying the income by a positive
    factor multiplies the maximum installment and the principal by the
    same factor, in either mode. *)
Theorem component_principal_proportional_to_income
    (rateMode : RateMode) (c income a : R) (Y : Z) (ps : list RatePeriod) :
  0 < c ->
  let form := mkForm income a Y ps in
  let form' := mkForm (c * income) a Y ps in
  LoanCapacity.maxMonthlyInstallment form' =
    c * LoanCapacity.maxMonthlyInstallment form /\
  LoanCapacity.maxLoanPrincipal rateMode form' =
    c * LoanCapacity.maxLoanPrincipal rateMode form.
Proof.
  intros Hc form form'.
  assert (HM : LoanCapacity.maxMonthlyInstallment form' =
               c * LoanCapacity.maxMonthlyInstallment form).
  { unfold LoanCapacity.maxMonthlyInstallment, calculateMaxMonthlyInstallment.
    cbn [monthlyIncome form form'].
    destruct (Rgtb (c * income) 0) eqn:E1, (Rgtb income 0) eqn:E2;
      repeat match goal with
      | H : Rgtb _ _ = true |- _ => apply Rgtb_true in H
      | H : Rgtb _ _ = false |- _ => apply Rgtb_false in H
      end; try nra. }
  split; [exact HM|].
  unfold LoanCapacity.maxLoanPrincipal. rewrite HM.
  set (M := LoanCapacity.maxMonthlyInstallment form).
  change (LoanCapacity.usePeriods rateMode form')
    with (LoanCapacity.usePeriods rateMode form).
  change (LoanCapacity.periodsMismatch rateMode form')
    with (LoanCapacity.periodsMismatch rateMode form).
  change (LoanCapacity.totalMonths form') with (LoanCapacity.totalMonths form).
  cbn [ratePeriods interestRate form form'].
  destruct (Rleb (c * M) 0) eqn:E1, (Rleb M 0) eqn:E2;
    repeat match goal with
    | H : Rleb _ _ = true |- _ => apply Rleb_true in H
    | H : Rleb _ _ = false |- _ => apply Rleb_false in H
    end; try nra.
  destruct (_ && _); [now apply multi_rate_scale | now apply single_rate_scale].
Qed.

Lemma component_principal_proportional_to_income_witness :
  LoanCapacity.maxLoanPrincipal single (mkForm (2 * 2600) 3.8 20 []) =
    2 * LoanCapacity.maxLoanPrincipal single (mkForm 2600 3.8 20 []).
Proof.
  apply (component_principal_proportional_to_income single 2 2600 3.8 20 []).
  lra.
Defined.





(** ** Out-of-range durations *)

(** X8: for a negative [totalMonths] the single branch of the rate-vector
    expansion raises (the array length is invalid) while the multi branch
    returns the empty vector; in the component a negative duration outside
    effective multi mode therefore leaves no rate vector and no table,
    although the principal is 0. *)
Theorem rate_vector_negative_duration
    (rateMode : RateMode) (form : FormValues)
    (ps : list RatePeriod) (a : R) (T : Z) :
  ((T < 0)%Z ->
     buildMonthlyRatesArray single ps a T = None /\
     buildMonthlyRatesArray multi ps a T = Some []) /\
  ((durationYears form < 0)%Z -> effectiveMulti rateMode form = false ->
     LoanCapacity.monthlyRates rateMode form = None /\
     LoanCapacity.amortizationTable rateMode form = None /\
     LoanCapacity.maxLoanPrincipal rateMode form = 0).
Proof.
  split.
  - intros HT. split.
    + unfold buildMonthlyRatesArray. cbn [RateMode_eqb].
      destruct (Z.leb_spec 0 T); [lia | reflexivity].
    + rewrite buildMonthlyRatesArray_multi.
      replace (Z.to_nat T) with O by lia. reflexivity.
  - intros Hd Heff.
    assert (Hr : LoanCapacity.monthlyRates rateMode form = None).
    { unfold LoanCapacity.monthlyRates. fold (effectiveMulti rateMode form).
      rewrite Heff. unfold buildMonthlyRatesArray. cbn [RateMode_eqb].
      destruct (Z.leb_spec 0 (LoanCapacity.totalMonths form));
        [unfold LoanCapacity.totalMonths in *; lia | reflexivity]. }
    repeat apply conj.
    + exact Hr.
    + unfold LoanCapacity.amortizationTable. now rewrite Hr.
    + apply component_principal_zero. right. lia.
Qed.

Lemma rate_vector_negative_duration_witness :
  buildMonthlyRatesArray single [] 3.8 (-12) = None /\
  LoanCapacity.amortizationTable single (mkForm 2600 3.8 (-1) []) = None.
Proof.
  destruct (rate_vector_negative_duration single (mkForm 2600 3.8 (-1) [])
              [] 3.8 (-12)) as [H1 H2].
  split.
  - apply H1. lia.
  - apply H2; [cbn; lia | reflexivity].
Defined.

(** ** Invariants of the amortization table *)

Lemma amortizationLoop_capitalBefore_pos iters M rates : forall m c k row,
  0 < c ->
  nth_error (amortizationLoop iters M rates m c) k = Some row ->
  0 < capitalBefore row.
Proof.
  induction iters as [|n IH]; intros m c k row Hc Hk.
  - rewrite amortizationLoop_O in Hk. destruct k; discriminate.
  - loop_pass n M rates m c r0 E.
    + destruct k as [|k]; cbn [nth_error] in Hk; [|destruct k; discriminate].
      injection Hk as <-. exact Hc.
    + destruct k as [|k]; cbn [nth_error] in Hk.
      * injection Hk as <-. exact Hc.
      * eapply IH; [exact E | exact Hk].
Qed.

(** X9: every row of an amortization table opens on a positive capital and
    closes on a non-negative one; with non-negative rates its interest is
    non-negative, and whenever the installment covers the interest the
    capital does not grow. *)
Theorem amortization_row_signs (P M : R) (rates : list R) (T : Z)
    (k : nat) (row : AmortizationRow) :
  nth_error (buildAmortizationTable P M rates T) k = Some row ->
  0 < capitalBefore row /\
  0 <= capitalAfter row /\
  (Forall (fun r => 0 <= r) rates -> 0 <= interest row) /\
  (interest row <= M -> capitalAfter row <= capitalBefore row).
Proof.
  intros Hk.
  destruct (Rle_dec P 0) as [HP|HP].
  { rewrite buildAmortizationTable_guard in Hk by now left.
    destruct k; discriminate. }
  destruct (Z_le_dec T 0) as [HT|HT].
  { rewrite buildAmortizationTable_guard in Hk by now right.
    destruct k; discriminate. }
  rewrite buildAmortizationTable_body in Hk by (lra || lia).
  assert (Hcb : 0 < capitalBefore row)
    by (eapply amortizationLoop_capitalBefore_pos; [|exact Hk]; lra).
  destruct (amortizationLoop_rows _ _ _ _ _ _ _ Hk) as (Hrow & _ & _).
  pose proof (f_equal interest Hrow) as Hint.
  pose proof (f_equal capitalAfter Hrow) as Hca.
  cbn [amortizationRow interest capitalAfter] in Hint, Hca.
  rewrite <- Hint in Hca.
  repeat apply conj.
  - exact Hcb.
  - rewrite Hca. apply Rmax_r.
  - intros Hnn. rewrite Hint. apply Rmult_le_pos; [lra|].
    set (i := Z.to_nat (1 + Z.of_nat k - 1)).
    destruct (Nat.lt_ge_cases i (length rates)) as [Hi|Hi].
    + rewrite Forall_forall in Hnn. apply Hnn. now apply nth_In.
    + rewrite nth_overflow by assumption. lra.
  - intros Hle. rewrite Hca. apply Rmax_lub; lra.
Qed.

Lemma amortization_row_signs_witness :
  let row := amortizationRow 60 [0; 0] 1 100 in
  0 < capitalBefore row /\ 0 <= capitalAfter row.
Proof.
  intros row.
  assert (H : nth_error (buildAmortizationTable 100 60 [0; 0] 2) 0 = Some row)
    by (apply buildAmortizationTable_first; [lra | lia]).
  destruct (amortization_row_signs 100 60 [0; 0] 2 0 row H) as (H1 & H2 & _).
  split; assumption.
Defined.

(** ** The schedule without interest *)

Lemma skipn_repeat {A} (x : A) j n :
  skipn j (repeat x n) = repeat x (n - j).
Proof.
  revert j. induction n as [|n IH]; intros [|j]; cbn; try reflexivity.
  apply IH.
Qed.

(** X10: in exact real arithmetic, at an annual rate that is not positive
    the schedule is linear: the table built from the single-rate principal over the zero rate
    vector has [totalMonths] rows, each with no interest, an amortization
    equal to the installment, and a closing capital of the installment
    times the months that remain. *)
Theorem zero_rate_schedule_linear (M a : R) (T : Z) :
  0 < M -> (0 < T)%Z -> a <= 0 ->
  let rates := repeat (toMonthlyRate a) (Z.to_nat T) in
  let table :=
    buildAmortizationTable (calculateLoanPrincipalWithSingleRate M a T)
      M rates T in
  Z.of_nat (length table) = T /\
  forall k row,
    nth_error table k = Some row ->
    interest row = 0 /\
    amortization row = M /\
    capitalBefore row = M * IZR (T - Z.of_nat k) /\
    capitalAfter row = M * IZR (T - Z.of_nat k - 1).
Proof.
  intros HM HT Ha rates table.
  assert (Hz : toMonthlyRate a = 0) by now apply toMonthlyRate_nonpos.
  set (n := Z.to_nat T) in *.
  assert (Hrates : rates = repeat 0 n) by (unfold rates; now rewrite Hz).
  assert (Hnn : Forall (fun r => 0 <= r) rates).
  { rewrite Hrates. apply Forall_forall. intros r Hr.
    apply repeat_spec in Hr. lra. }
  assert (Hpv : forall j, pvFactor (skipn j rates) = INR (n - j)).
  { intros j. rewrite Hrates, skipn_repeat, pvFactor_repeat.
    apply annuityFactor_zero_rate. }
  assert (Hlr : length rates = n) by (unfold rates; apply repeat_length).
  assert (Htab : table =
            amortizationLoop (length rates) M ([] ++ rates)
              (Z.of_nat (length (@nil R)) + 1) (M * pvFactor rates)).
  { unfold table. rewrite single_rate_pvFactor by assumption. fold n rates.
    assert (0 < pvFactor rates).
    { apply pvFactor_pos; [assumption|].
      rewrite Hrates. destruct n eqn:En; [lia | discriminate]. }
    rewrite buildAmortizationTable_body by (nra || lia).
    rewrite Hlr. reflexivity. }
  destruct (amortizationLoop_pv M HM rates [] Hnn) as [Hl Hrows].
  rewrite <- Htab in Hl, Hrows.
  assert (Hlen : length table = n) by (rewrite Hl; exact Hlr).
  split; [rewrite Hlen; unfold n; lia|].
  intros k row Hk.
  assert (Hkn : (k < n)%nat)
    by (rewrite <- Hlen; apply nth_error_Some; congruence).
  destruct (Hrows _ _ Hk) as [Hcb Hca]. rewrite Hpv in Hcb, Hca.
  assert (Hk' := Hk). rewrite Htab in Hk'.
  destruct (amortizationLoop_rows _ _ _ _ _ _ _ Hk') as (Hrow & _ & _).
  pose proof (f_equal interest Hrow) as Hint.
  pose proof (f_equal amortization Hrow) as Ham.
  cbn [amortizationRow interest amortization] in Hint, Ham.
  assert (Hnth : forall i, nth i rates 0 = 0).
  { intros i. rewrite Hrates. apply nth_repeat. }
  cbn [app] in Hint, Ham. rewrite Hnth in Hint, Ham.
  repeat apply conj.
  - rewrite Hint. ring.
  - rewrite Ham. ring.
  - rewrite Hcb, INR_IZR_INZ. do 2 f_equal. unfold n. lia.
  - rewrite Hca, INR_IZR_INZ. do 2 f_equal. unfold n. lia.
Qed.

Lemma zero_rate_schedule_linear_witness :
  let table :=
    buildAmortizationTable (calculateLoanPrincipalWithSingleRate 100 0 12)
      100 (repeat (toMonthlyRate 0) 12) 12 in
  Z.of_nat (length table) = 12%Z.
Proof.
  intros table.
  apply (zero_rate_schedule_linear 100 0 12); [lra | lia | lra].
Defined.

(** * The form: auto-fill effect and period handlers *)

Lemma list_eq_nil_dec {A} (l : list A) : {l = []} + {l <> []}.
Proof. destruct l; [now left | right; discriminate]. Qed.

Lemma sumPeriodYears_app l1 l2 :
  sumPeriodYears (l1 ++ l2) = (sumPeriodYears l1 + sumPeriodYears l2)%Z.
Proof.
  induction l1 as [|p l1 IH]; [reflexivity|].
  cbn [app]. rewrite !sumPeriodYears_cons, IH. lia.
Qed.

Lemma setRatePeriods_same form : setRatePeriods form (ratePeriods form) = form.
Proof. now destruct form. Qed.

Lemma setPeriodYears_last init last v :
  setPeriodYears (length init) v (init ++ [last]) =
    init ++ [ {| years := v; rate := rate last |} ].
Proof.
  unfold setPeriodYears.
  rewrite nth_error_app2, Nat.sub_diag by lia. cbn [nth_error].
  rewrite firstn_app, firstn_all, Nat.sub_diag. cbn [firstn].
  rewrite app_nil_r, skipn_all2 by (rewrite length_app; cbn; lia).
  reflexivity.
Qed.

(** What the effect does when it applies: the last period's years become
    the remainder of the duration, floored at 0. *)
Lemma autoFillLastPeriod_multi form init last :
  ratePeriods form = init ++ [last] -> (0 < durationYears form)%Z ->
  autoFillLastPeriod multi form =
    setRatePeriods form
      (init ++ [ {| years := Z.max (durationYears form - sumPeriodYears init) 0;
                    rate := rate last |} ]).
Proof.
  intros Hl Hd. unfold autoFillLastPeriod. cbn [RateMode_eqb negb].
  rewrite Hl, length_app. cbn [length].
  replace (length init + 1 =? 0)%nat with false
    by (symmetry; apply Nat.eqb_neq; lia).
  destruct (Z.leb_spec (durationYears form) 0); [lia|]. cbn [orb].
  replace (length init + 1 - 1)%nat with (length init) by lia.
  rewrite firstn_app, firstn_all, Nat.sub_diag. cbn [firstn].
  rewrite app_nil_r.
  rewrite nth_error_app2, Nat.sub_diag by lia. cbn [nth_error].
  fold (sumPeriodYears init).
  destruct (Z.eqb_spec (years last)
              (Z.max (durationYears form - sumPeriodYears init) 0)) as [E|E];
    cbn [negb].
  - rewrite <- E. rewrite <- (setRatePeriods_same form) at 1.
    rewrite Hl. now destruct last.
  - now rewrite setPeriodYears_last.
Qed.

Lemma effectiveMulti_multi_true form :
  ratePeriods form <> [] ->
  sumPeriodYears (ratePeriods form) = durationYears form ->
  effectiveMulti multi form = true.
Proof. intros H1 H2. apply effectiveMulti_iff. repeat split; assumption. Qed.

Lemma effectiveMulti_sum_false rateMode form :
  sumPeriodYears (ratePeriods form) <> durationYears form ->
  effectiveMulti rateMode form = false.
Proof.
  intros H. destruct (effectiveMulti rateMode form) eqn:E; [|reflexivity].
  apply effectiveMulti_iff in E. destruct E as (_ & _ & E). contradiction.
Qed.

(** X11: in multi mode, with at least one period and a positive duration,
    the auto-fill effect changes nothing but the years of the last period,
    which become [max (duration - years of the other periods) 0]; the
    schedule is then valid ([effectiveMulti]) exactly when the other
    periods do not exceed the duration. *)
Theorem autoFill_restores_schedule
    (form : FormValues) (init : list RatePeriod) (last : RatePeriod) :
  ratePeriods form = init ++ [last] -> (0 < durationYears form)%Z ->
  let form' := autoFillLastPeriod multi form in
  let D := durationYears form in
  ratePeriods form' =
    init ++ [ {| years := Z.max (D - sumPeriodYears init) 0;
                 rate := rate last |} ] /\
  monthlyIncome form' = monthlyIncome form /\
  interestRate form' = interestRate form /\
  durationYears form' = D /\
  sumPeriodYears (ratePeriods form') = Z.max D (sumPeriodYears init) /\
  (effectiveMulti multi form' = true <-> (sumPeriodYears init <= D)%Z).
Proof.
  intros Hl Hd form' D.
  assert (Hf : form' = setRatePeriods form
                 (init ++ [ {| years := Z.max (D - sumPeriodYears init) 0;
                               rate := rate last |} ]))
    by (apply autoFillLastPeriod_multi; assumption).
  assert (Hsum : sumPeriodYears (ratePeriods form') =
                 Z.max D (sumPeriodYears init)).
  { rewrite Hf. cbn [setRatePeriods ratePeriods].
    rewrite sumPeriodYears_app, sumPeriodYears_cons. cbn. lia. }
  rewrite Hf at 1 2 3 4. cbn [setRatePeriods ratePeriods monthlyIncome
                               interestRate durationYears].
  repeat apply conj; try reflexivity; try exact Hsum.
  - intros E. apply effectiveMulti_iff in E. destruct E as (_ & _ & E).
    rewrite Hsum, Hf in E. cbn [setRatePeriods durationYears] in E.
    fold D in E. lia.
  - intros Hle. apply effectiveMulti_multi_true.
    + rewrite Hf. cbn [setRatePeriods ratePeriods].
      intros E. apply app_eq_nil in E. destruct E; discriminate.
    + rewrite Hsum, Hf. cbn [setRatePeriods durationYears]. fold D. lia.
Qed.

Lemma autoFill_restores_schedule_witness :
  let form := mkForm 2600 3.8 20 [mkRatePeriod 5 2; mkRatePeriod 1 4] in
  ratePeriods (autoFillLastPeriod multi form) =
    [mkRatePeriod 5 2; mkRatePeriod 15 4] /\
  effectiveMulti multi (autoFillLastPeriod multi form) = true.
Proof.
  intros form.
  destruct (autoFill_restores_schedule form [mkRatePeriod 5 2]
              (mkRatePeriod 1 4))
    as (Hl & _ & _ & _ & _ & Hv); [reflexivity | cbn; lia |].
  split; [exact Hl | apply Hv; cbn; lia].
Defined.

(** X12: the auto-fill effect is idempotent (running it on its own result
    changes nothing), and it leaves the form untouched in single mode,
    without periods, or with a duration that is not positive. *)
Theorem autoFill_idempotent (rateMode : RateMode) (form : FormValues) :
  autoFillLastPeriod rateMode (autoFillLastPeriod rateMode form) =
    autoFillLastPeriod rateMode form /\
  (rateMode = single \/ ratePeriods form = [] \/ (durationYears form <= 0)%Z ->
     autoFillLastPeriod rateMode form = form).
Proof.
  assert (Hguard : rateMode = single \/ ratePeriods form = [] \/
                   (durationYears form <= 0)%Z ->
                   autoFillLastPeriod rateMode form = form).
  { intros H. unfold autoFillLastPeriod.
    destruct rateMode; cbn [RateMode_eqb negb]; [reflexivity|].
    destruct (ratePeriods form) as [|p ps]; [reflexivity|].
    destruct (Z.leb_spec (durationYears form) 0); [reflexivity|].
    destruct H as [H|[H|H]]; [discriminate | discriminate | lia]. }
  split; [|exact Hguard].
  destruct rateMode; [reflexivity|].
  destruct (list_eq_nil_dec (ratePeriods form)) as [El|Hne].
  { now rewrite !Hguard by (right; left; assumption). }
  destruct (Z_le_dec (durationYears form) 0) as [Hd|Hd].
  { now rewrite !Hguard by (right; right; assumption). }
  destruct (ratePeriods form) as [|p ps] eqn:El; [contradiction|].
  pose proof (app_removelast_last p Hne) as Hsplit.
  set (init := removelast (p :: ps)) in *.
  set (lst := List.last (p :: ps) p) in *.
  rewrite <- El in Hsplit.
  rewrite (autoFillLastPeriod_multi form init lst Hsplit) by lia.
  set (form' := setRatePeriods form _).
  rewrite (autoFillLastPeriod_multi form' init
             {| years := Z.max (durationYears form - sumPeriodYears init) 0;
                rate := rate lst |}); [|reflexivity | cbn; lia].
  reflexivity.
Qed.

Lemma autoFill_idempotent_witness :
  autoFillLastPeriod multi (mkForm 2600 3.8 20 []) = mkForm 2600 3.8 20 [].
Proof.
  apply (proj2 (autoFill_idempotent multi (mkForm 2600 3.8 20 []))).
  right; left; reflexivity.
Defined.

(** X13: adding a period appends one period at the default rate that
    takes the years still missing; the schedule becomes valid when years
    were missing, and otherwise the new period gets 1 year, which the
    auto-fill effect then turns into 0. *)
Theorem handleAddPeriod_fills_duration (form : FormValues) :
  let used := sumPeriodYears (ratePeriods form) in
  let D := durationYears form in
  let form' := handleAddPeriod form in
  (exists p,
     ratePeriods form' = ratePeriods form ++ [p] /\ rate p = DEFAULT_RATE /\
     years p = (if (used <? D)%Z then D - used else 1)%Z) /\
  ((used < D)%Z ->
     sumPeriodYears (ratePeriods form') = D /\
     effectiveMulti multi form' = true) /\
  ((D <= used)%Z ->
     sumPeriodYears (ratePeriods form') = (used + 1)%Z /\
     effectiveMulti multi form' = false) /\
  ((0 < D)%Z ->
     ratePeriods (autoFillLastPeriod multi form') =
       ratePeriods form
       ++ [ {| years := Z.max (D - used) 0; rate := DEFAULT_RATE |} ]).
Proof.
  intros used D form'.
  set (y := (if (used <? D)%Z then D - used else 1)%Z).
  assert (Hl : ratePeriods form' =
               ratePeriods form ++ [ {| years := y; rate := DEFAULT_RATE |} ]).
  { unfold form', handleAddPeriod. cbn [setRatePeriods ratePeriods].
    fold used D. do 3 f_equal. unfold y.
    destruct (Z.ltb_spec used D), (Z.eqb_spec (Z.max (D - used) 0) 0); lia. }
  assert (Hd : durationYears form' = D) by reflexivity.
  assert (Hsum : sumPeriodYears (ratePeriods form') = (used + y)%Z).
  { rewrite Hl, sumPeriodYears_app, sumPeriodYears_cons. cbn. fold used. lia. }
  repeat apply conj.
  - eexists. split; [exact Hl|]. split; reflexivity.
  - intros Hlt. unfold y in Hsum. destruct (Z.ltb_spec used D); [|lia].
    split; [rewrite Hsum; lia|].
    apply effectiveMulti_multi_true.
    + rewrite Hl. intros E. apply app_eq_nil in E. destruct E; discriminate.
    + rewrite Hsum, Hd. lia.
  - intros Hge. unfold y in Hsum. destruct (Z.ltb_spec used D); [lia|].
    split; [exact Hsum|].
    apply effectiveMulti_sum_false. rewrite Hsum, Hd. lia.
  - intros HD.
    rewrite (autoFillLastPeriod_multi form' (ratePeriods form)
               {| years := y; rate := DEFAULT_RATE |} Hl)
      by (rewrite Hd; exact HD).
    cbn [setRatePeriods ratePeriods rate]. rewrite Hd. reflexivity.
Qed.

Lemma handleAddPeriod_fills_duration_witness :
  let form := mkForm 2600 3.8 20 [mkRatePeriod 5 2] in
  sumPeriodYears (ratePeriods (handleAddPeriod form)) = 20%Z /\
  effectiveMulti multi (handleAddPeriod form) = true.
Proof.
  intros form.
  destruct (handleAddPeriod_fills_duration form) as (_ & H & _).
  apply H. cbn. lia.
Defined.

(** * The earlier version computes the same results *)

Lemma Backup_pvStep r st : Backup.pvStep r st = pvStep r st.
Proof.
  unfold Backup.pvStep, pvStep.
  replace (discountFactor st * (1 / (1 + r)))
    with (discountFactor st / (1 + r)) by (unfold Rdiv; ring).
  reflexivity.
Qed.

Lemma Backup_pvInnerLoop iters r T : forall st,
  Backup.pvInnerLoop iters r T st = pvInnerLoop iters r T st.
Proof.
  induction iters as [|k IH]; intros st; cbn [Backup.pvInnerLoop pvInnerLoop];
    [reflexivity|].
  destruct (monthsCount st >=? T)%Z; [reflexivity|].
  now rewrite Backup_pvStep, IH.
Qed.

Lemma Backup_pvOuterLoop ps T : forall st,
  Backup.pvOuterLoop ps T st = pvOuterLoop ps T st.
Proof.
  induction ps as [|p ps IH]; intros st;
    cbn [Backup.pvOuterLoop pvOuterLoop]; [reflexivity|].
  fold (toMonthlyRate (rate p)). rewrite Backup_pvInnerLoop.
  destruct (monthsCount _ >=? T)%Z; [reflexivity | apply IH].
Qed.

Lemma Backup_ratesInnerLoop iters r T : forall st,
  Backup.ratesInnerLoop iters r T st = ratesInnerLoop iters r T st.
Proof.
  induction iters as [|k IH]; intros st;
    cbn [Backup.ratesInnerLoop ratesInnerLoop]; [reflexivity|].
  destruct (Z.geb_spec (monthIdx st) T), (Z.ltb_spec (monthIdx st) T);
    try lia; [reflexivity | apply IH].
Qed.

Lemma Backup_ratesOuterLoop ps T : forall st,
  Backup.ratesOuterLoop ps T st = ratesOuterLoop ps T st.
Proof.
  induction ps as [|p ps IH]; intros st;
    cbn [Backup.ratesOuterLoop ratesOuterLoop]; [reflexivity|].
  fold (toMonthlyRate (rate p)). rewrite Backup_ratesInnerLoop.
  destruct (monthIdx _ >=? T)%Z; [reflexivity | apply IH].
Qed.

Lemma Backup_ratesSingleLoop iters r : forall acc,
  Backup.ratesSingleLoop iters r acc = acc ++ repeat r iters.
Proof.
  induction iters as [|k IH]; intros acc; cbn [Backup.ratesSingleLoop repeat].
  - now rewrite app_nil_r.
  - rewrite IH, <- app_assoc. reflexivity.
Qed.

Lemma Backup_maxMonthlyInstallment form :
  Backup.maxMonthlyInstallment form = LoanCapacity.maxMonthlyInstallment form.
Proof.
  unfold Backup.maxMonthlyInstallment, LoanCapacity.maxMonthlyInstallment,
    calculateMaxMonthlyInstallment, DEBT_TO_INCOME_RATIO.
  destruct (Rgtb (monthlyIncome form) 0); [field | reflexivity].
Qed.

Lemma Backup_maxLoanPrincipal rateMode form :
  Backup.maxLoanPrincipal rateMode form =
    LoanCapacity.maxLoanPrincipal rateMode form.
Proof.
  unfold Backup.maxLoanPrincipal, LoanCapacity.maxLoanPrincipal.
  rewrite Backup_maxMonthlyInstallment.
  change (Backup.usePeriods rateMode form)
    with (LoanCapacity.usePeriods rateMode form).
  change (Backup.periodsMismatch rateMode form)
    with (LoanCapacity.periodsMismatch rateMode form).
  change (Backup.totalMonths form) with (LoanCapacity.totalMonths form).
  set (M := LoanCapacity.maxMonthlyInstallment form).
  set (T := LoanCapacity.totalMonths form).
  destruct (Rgtb M 0) eqn:E1, (Rleb M 0) eqn:E2;
    repeat match goal with
    | H : Rgtb _ _ = true |- _ => apply Rgtb_true in H
    | H : Rgtb _ _ = false |- _ => apply Rgtb_false in H
    | H : Rleb _ _ = true |- _ => apply Rleb_true in H
    | H : Rleb _ _ = false |- _ => apply Rleb_false in H
    end; try lra; try reflexivity.
  destruct (_ && _) eqn:Eeff.
  - rewrite Backup_pvOuterLoop.
    unfold calculateLoanPrincipalWithMultipleRates.
    destruct (Z.leb_spec T 0) as [HT|HT]; cbn [orb].
    + rewrite pvOuterLoop_run, pvRun_pvFactorSum.
      cbn [pvInit monthsCount pvFactorSum discountFactor].
      replace (Z.to_nat (T - 0)) with O by lia. cbn. ring.
    + destruct (Rleb M 0) eqn:E; [apply Rleb_true in E; lra|]. cbn [orb].
      fold (effectiveMulti rateMode form) in Eeff.
      apply effectiveMulti_iff in Eeff. destruct Eeff as (_ & Hne & _).
      destruct (ratePeriods form); [contradiction | reflexivity].
  - fold (toMonthlyRate (interestRate form)).
    unfold calculateLoanPrincipalWithSingleRate.
    destruct (Z.gtb_spec T 0), (Z.leb_spec T 0); try lia; cbn [orb];
      [|reflexivity].
    destruct (Rleb M 0) eqn:E; [apply Rleb_true in E; lra | reflexivity].
Qed.

Lemma Backup_monthlyRates rateMode form rates :
  LoanCapacity.monthlyRates rateMode form = Some rates ->
  Backup.monthlyRates rateMode form = rates.
Proof.
  unfold LoanCapacity.monthlyRates, Backup.monthlyRates.
  change (Backup.usePeriods rateMode form)
    with (LoanCapacity.usePeriods rateMode form).
  change (Backup.periodsMismatch rateMode form)
    with (LoanCapacity.periodsMismatch rateMode form).
  change (Backup.totalMonths form) with (LoanCapacity.totalMonths form).
  destruct (_ && _).
  - unfold buildMonthlyRatesArray. cbn [RateMode_eqb].
    rewrite Backup_ratesOuterLoop. now intros [= <-].
  - unfold buildMonthlyRatesArray. cbn [RateMode_eqb].
    fold (toMonthlyRate (interestRate form)).
    destruct (_ && _); [|discriminate].
    intros [= <-]. now rewrite Backup_ratesSingleLoop.
Qed.

(** X14: the inlined earlier version of the component computes the same
    maximum installment and the same principal as the current functions,
    and the same amortization table whenever the current version produces
    one; for a negative duration, where the current rate vector may raise,
    it returns the empty table. *)
Theorem backup_version_agrees (rateMode : RateMode) (form : FormValues) :
  Backup.maxMonthlyInstallment form = LoanCapacity.maxMonthlyInstallment form /\
  Backup.maxLoanPrincipal rateMode form =
    LoanCapacity.maxLoanPrincipal rateMode form /\
  (forall table,
     LoanCapacity.amortizationTable rateMode form = Some table ->
     Backup.amortizationTable rateMode form = table) /\
  ((durationYears form < 0)%Z -> Backup.amortizationTable rateMode form = []).
Proof.
  split; [apply Backup_maxMonthlyInstallment|].
  split; [apply Backup_maxLoanPrincipal|].
  split.
  - intros table. unfold LoanCapacity.amortizationTable.
    destruct (LoanCapacity.monthlyRates rateMode form) as [rates|] eqn:Hr;
      [|discriminate].
    cbn [option_map]. intros [= <-].
    unfold Backup.amortizationTable, Backup.buildAmortizationTable,
      buildAmortizationTable.
    rewrite Backup_maxLoanPrincipal, Backup_maxMonthlyInstallment,
      (Backup_monthlyRates _ _ _ Hr).
    reflexivity.
  - intros Hd. unfold Backup.amortizationTable, Backup.buildAmortizationTable.
    destruct (Z.leb_spec (Backup.totalMonths form) 0) as [_|H];
      [now rewrite orb_true_r|].
    unfold Backup.totalMonths in H. lia.
Qed.

Lemma backup_version_agrees_witness :
  let form := mkForm 2600 3.8 20 [] in
  LoanCapacity.amortizationTable single form =
    Some (Backup.amortizationTable single form) /\
  Backup.amortizationTable single (mkForm 2600 3.8 (-1) []) = [].
Proof.
  intros form.
  destruct (component_rates_and_principal single form) as (rates & Hr & _).
  { cbn. lra. }
  { cbn. lia. }
  { unfold MAX_ARRAY_LENGTH. cbn. lia. }
  assert (Ht : LoanCapacity.amortizationTable single form =
               Some (buildAmortizationTable
                       (LoanCapacity.maxLoanPrincipal single form)
                       (LoanCapacity.maxMonthlyInstallment form) rates
                       (LoanCapacity.totalMonths form)))
    by (unfold LoanCapacity.amortizationTable; now rewrite Hr).
  set (table := buildAmortizationTable _ _ _ _) in Ht.
  destruct (backup_version_agrees single form) as (_ & _ & Hsame & _).
  destruct (backup_version_agrees single (mkForm 2600 3.8 (-1) []))
    as (_ & _ & _ & Hneg).
  split.
  - rewrite (Hsame table Ht). exact Ht.
  - apply Hneg. cbn. lia.
Defined.

(** * Form validation *)

(** X15: the income and the interest-rate validators accept exactly the
    positive numbers (finite or [+Infinity]) and the duration validator
    exactly the finite numbers in (0, 25]; in particular a rate of 0,
    which the engine handles, is rejected with the not-a-number message,
    and only a negative rate gets the negative-rate message. *)
Theorem scalar_validators_accept (v : JsNumber) :
  (validate.monthlyIncome v = None <->
     v = JsPosInfinity \/ exists x, v = JsFinite x /\ 0 < x) /\
  (validate.interestRate v = None <->
     v = JsPosInfinity \/ exists x, v = JsFinite x /\ 0 < x) /\
  (validate.durationYears v = None <->
     exists x, v = JsFinite x /\ 0 < x <= 25) /\
  validate.interestRate (JsFinite 0) =
    Some "Le taux d'intérêt doit être un nombre" /\
  (validate.interestRate v =
     Some "Le taux d'intérêt ne peut pas être négatif" <->
     v = JsNegInfinity \/ exists x, v = JsFinite x /\ x < 0).
Proof.
  assert (H00 : Reqb 0 0 = true) by now apply Reqb_true.
  split; [|split; [|split; [|split]]].
  - unfold validate.monthlyIncome. destruct v as [| | |x];
      cbn [isNaN jsNot jsLe jsLt jsGt orb].
    + split; [discriminate | intros [H|(x & H & _)]; discriminate].
    + split; [now left | reflexivity].
    + split; [discriminate | intros [H|(x & H & _)]; discriminate].
    + destruct (Reqb x 0) eqn:E0;
        [apply Reqb_true in E0 | apply Reqb_false in E0].
      * split; [discriminate|]. intros [H|(y & [= <-] & Hy)]; [discriminate|lra].
      * destruct (Rleb x 0) eqn:E1;
          [apply Rleb_true in E1 | apply Rleb_false in E1].
        -- split; [discriminate|].
           intros [H|(y & [= <-] & Hy)]; [discriminate|lra].
        -- split; [intros _; right; now exists x | reflexivity].
  - unfold validate.interestRate. destruct v as [| | |x];
      cbn [isNaN jsNot jsLe jsLt jsGt orb].
    + split; [discriminate | intros [H|(x & H & _)]; discriminate].
    + split; [now left | reflexivity].
    + split; [discriminate | intros [H|(x & H & _)]; discriminate].
    + destruct (Reqb x 0) eqn:E0;
        [apply Reqb_true in E0 | apply Reqb_false in E0].
      * split; [discriminate|]. intros [H|(y & [= <-] & Hy)]; [discriminate|lra].
      * destruct (Rgtb 0 x) eqn:E1;
          [apply Rgtb_true in E1 | apply Rgtb_false in E1].
        -- split; [discriminate|].
           intros [H|(y & [= <-] & Hy)]; [discriminate|lra].
        -- split; [intros _; right; exists x; split; [reflexivity | lra]
                  | reflexivity].
  - unfold validate.durationYears, MAX_LOAN_DURATION_YEARS.
    destruct v as [| | |x];
      cbn [isNaN jsNot jsLe jsLt jsGt orb].
    + split; [discriminate | intros (x & H & _); discriminate].
    + split; [discriminate | intros (x & H & _); discriminate].
    + split; [discriminate | intros (x & H & _); discriminate].
    + destruct (Reqb x 0) eqn:E0;
        [apply Reqb_true in E0 | apply Reqb_false in E0].
      * split; [discriminate | intros (y & [= <-] & Hy); lra].
      * destruct (Rleb x 0) eqn:E1;
          [apply Rleb_true in E1 | apply Rleb_false in E1]; cbn [isNaN jsNot jsLe jsLt jsGt orb].
        -- split; [discriminate | intros (y & [= <-] & Hy); lra].
        -- destruct (Rgtb x 25) eqn:E2;
             [apply Rgtb_true in E2 | apply Rgtb_false in E2].
           ++ split; [discriminate | intros (y & [= <-] & Hy); lra].
           ++ split; [intros _; exists x; split; [reflexivity | lra]
                     | reflexivity].
  - unfold validate.interestRate. cbn [isNaN jsNot orb]. now rewrite H00.
  - unfold validate.interestRate. destruct v as [| | |x];
      cbn [isNaN jsNot jsLe jsLt jsGt orb].
    + split; [discriminate | intros [H|(x & H & _)]; discriminate].
    + split; [discriminate | intros [H|(x & H & _)]; discriminate].
    + split; [now left | reflexivity].
    + destruct (Reqb x 0) eqn:E0;
        [apply Reqb_true in E0 | apply Reqb_false in E0].
      * split; [discriminate|]. intros [H|(y & [= <-] & Hy)]; [discriminate|lra].
      * destruct (Rgtb 0 x) eqn:E1;
          [apply Rgtb_true in E1 | apply Rgtb_false in E1].
        -- split; [intros _; right; now exists x | reflexivity].
        -- split; [discriminate|].
           intros [H|(y & [= <-] & Hy)]; [discriminate|lra].
Qed.

Lemma scalar_validators_accept_witness :
  validate.monthlyIncome (JsFinite 2600) = None /\
  validate.durationYears (JsFinite 20) = None.
Proof.
  split.
  - apply (proj1 (scalar_validators_accept (JsFinite 2600))).
    right. exists 2600. split; [reflexivity | lra].
  - apply (proj1 (proj2 (proj2 (scalar_validators_accept (JsFinite 20))))).
    exists 20. split; [reflexivity | lra].
Defined.

Lemma existsb_false_Forall {A} (f : A -> bool) l :
  existsb f l = false <-> Forall (fun x => f x = false) l.
Proof.
  induction l as [|x l IH]; cbn [existsb].
  - split; [constructor | reflexivity].
  - rewrite orb_false_iff, IH. split.
    + intros [H1 H2]. now constructor.
    + intros H. inversion H; subst. now split.
Qed.

Lemma years_input_ok v :
  negb (isFinite v) || jsLe v 0 = false <-> exists y, v = JsFinite y /\ 0 < y.
Proof.
  destruct v as [| | |x]; cbn [isFinite negb jsLe orb];
    try (split; [discriminate | intros (y & H & _); discriminate]).
  destruct (Rleb x 0) eqn:E; [apply Rleb_true in E | apply Rleb_false in E].
  - split; [discriminate | intros (y & [= <-] & Hy); lra].
  - split; [intros _; now exists x | reflexivity].
Qed.

Lemma rate_input_ok v :
  negb (isFinite v) || jsLt v 0 = false <-> exists r, v = JsFinite r /\ 0 <= r.
Proof.
  destruct v as [| | |x]; cbn [isFinite negb jsLt orb];
    try (split; [discriminate | intros (y & H & _); discriminate]).
  destruct (Rgtb 0 x) eqn:E; [apply Rgtb_true in E | apply Rgtb_false in E].
  - split; [discriminate | intros (y & [= <-] & Hy); lra].
  - split; [intros _; now exists x | reflexivity].
Qed.

(** X16: the period-list validator accepts exactly the empty list and the
    lists in which every period has finite years above 0 and a finite rate
    of at least 0; a period with bad years is reported before any bad
    rate. *)
Theorem ratePeriods_validator_accepts (periods : list RatePeriodInput) :
  (validate.ratePeriods periods = None <->
     periods = [] \/
     Forall (fun p =>
               (exists y, yearsInput p = JsFinite y /\ 0 < y) /\
               (exists r, rateInput p = JsFinite r /\ 0 <= r)) periods) /\
  (Exists (fun p => ~ exists y, yearsInput p = JsFinite y /\ 0 < y) periods ->
     validate.ratePeriods periods =
       Some "Chaque période doit avoir des années > 0").
Proof.
  unfold validate.ratePeriods.
  set (badYears := fun p : RatePeriodInput =>
         negb (isFinite (yearsInput p)) || jsLe (yearsInput p) 0).
  set (badRate := fun p : RatePeriodInput =>
         negb (isFinite (rateInput p)) || jsLt (rateInput p) 0).
  split.
  - destruct periods as [|p ps]; [split; [now left | reflexivity]|].
    cbn [length Nat.eqb].
    destruct (existsb badYears (p :: ps)) eqn:Ey.
    + split; [discriminate|]. intros [H|H]; [discriminate|].
      assert (existsb badYears (p :: ps) = false); [|congruence].
      apply existsb_false_Forall. eapply Forall_impl; [|exact H].
      intros q [Hq _]. now apply years_input_ok.
    + destruct (existsb badRate (p :: ps)) eqn:Er.
      * split; [discriminate|]. intros [H|H]; [discriminate|].
        assert (existsb badRate (p :: ps) = false); [|congruence].
        apply existsb_false_Forall. eapply Forall_impl; [|exact H].
        intros q [_ Hq]. now apply rate_input_ok.
      * split; [|reflexivity]. intros _. right.
        apply existsb_false_Forall in Ey, Er.
        rewrite Forall_forall in *. intros q Hq. split.
        -- now apply years_input_ok, Ey.
        -- now apply rate_input_ok, Er.
  - intros Hex.
    destruct periods as [|p ps]; [inversion Hex|]. cbn [length Nat.eqb].
    destruct (existsb badYears (p :: ps)) eqn:Ey; [reflexivity|].
    exfalso. apply existsb_false_Forall in Ey.
    apply Exists_exists in Hex. destruct Hex as (q & Hq & Hbad).
    rewrite Forall_forall in Ey. apply Hbad. now apply years_input_ok, Ey.
Qed.

Lemma ratePeriods_validator_accepts_witness :
  validate.ratePeriods
    [mkRatePeriodInput (JsFinite 10) (JsFinite 2);
     mkRatePeriodInput (JsFinite 10) (JsFinite 0)] = None /\
  validate.ratePeriods
    [mkRatePeriodInput (JsFinite 0) (JsFinite (-1))] =
    Some "Chaque période doit avoir des années > 0".
Proof.
  split.
  - apply (proj1 (ratePeriods_validator_accepts _)). right.
    repeat constructor.
    + exists 10. split; [reflexivity | lra].
    + exists 2. split; [reflexivity | lra].
    + exists 10. split; [reflexivity | lra].
    + exists 0. split; [reflexivity | lra].
  - apply (proj2 (ratePeriods_validator_accepts _)).
    constructor. cbn. intros (y & [= <-] & Hy). lra.
Defined.

(** * Periods are read through their months only *)

Lemma expandPeriods_app ps1 ps2 :
  expandPeriods (ps1 ++ ps2) = expandPeriods ps1 ++ expandPeriods ps2.
Proof. unfold expandPeriods. apply flat_map_app. Qed.

Lemma multi_rate_by_expansion M ps ps' T :
  (ps = [] <-> ps' = []) ->
  firstn (Z.to_nat T) (expandPeriods ps)
    = firstn (Z.to_nat T) (expandPeriods ps') ->
  calculateLoanPrincipalWithMultipleRates M ps T =
    calculateLoanPrincipalWithMultipleRates M ps' T.
Proof.
  intros Hnil Hexp. unfold calculateLoanPrincipalWithMultipleRates.
  rewrite !pvOuterLoop_run. cbn [pvInit monthsCount]. rewrite Z.sub_0_r, Hexp.
  destruct ps, ps'; try reflexivity.
  - destruct Hnil as [H _]. discriminate (H eq_refl).
  - destruct Hnil as [_ H]. discriminate (H eq_refl).
Qed.

(** X17: the multi-rate capacity and the multi-mode rate vector read the
    periods only through their months up to [totalMonths]: periods listed
    after the duration is covered are ignored, and a period split into two
    consecutive periods at the same rate gives the same results. *)
Theorem periods_read_by_months
    (M a r : R) (ps extra before after : list RatePeriod) (y1 y2 T : Z) :
  ((T <= sumPeriodMonths ps)%Z -> ps <> [] ->
     calculateLoanPrincipalWithMultipleRates M (ps ++ extra) T =
       calculateLoanPrincipalWithMultipleRates M ps T /\
     buildMonthlyRatesArray multi (ps ++ extra) a T =
       buildMonthlyRatesArray multi ps a T) /\
  ((0 <= y1)%Z -> (0 <= y2)%Z ->
     let whole := before ++ mkRatePeriod (y1 + y2) r :: after in
     let halves := before ++ mkRatePeriod y1 r :: mkRatePeriod y2 r :: after in
     calculateLoanPrincipalWithMultipleRates M halves T =
       calculateLoanPrincipalWithMultipleRates M whole T /\
     buildMonthlyRatesArray multi halves a T =
       buildMonthlyRatesArray multi whole a T).
Proof.
  split.
  - intros Hcov Hne.
    assert (Hexp : firstn (Z.to_nat T) (expandPeriods (ps ++ extra)) =
                   firstn (Z.to_nat T) (expandPeriods ps)).
    { rewrite expandPeriods_app, firstn_app.
      pose proof (expandPeriods_length ps).
      replace (Z.to_nat T - length (expandPeriods ps))%nat with O by lia.
      cbn [firstn]. apply app_nil_r. }
    split.
    + apply multi_rate_by_expansion; [|exact Hexp].
      split; [|intros ->; contradiction].
      intros E. apply app_eq_nil in E. destruct E; contradiction.
    + rewrite !buildMonthlyRatesArray_multi. now rewrite Hexp.
  - intros H1 H2 whole halves.
    assert (Hexp : expandPeriods halves = expandPeriods whole).
    { unfold halves, whole. rewrite !expandPeriods_app. f_equal.
      cbn [expandPeriods flat_map]. unfold periodMonths. cbn [years rate].
      rewrite app_assoc, <- repeat_app. do 2 f_equal. lia. }
    split.
    + apply multi_rate_by_expansion; [|now rewrite Hexp].
      unfold halves, whole.
      split; intros E; apply app_eq_nil in E; destruct E; discriminate.
    + rewrite !buildMonthlyRatesArray_multi. now rewrite Hexp.
Qed.

Lemma periods_read_by_months_witness :
  calculateLoanPrincipalWithMultipleRates 100
    ([mkRatePeriod 2 3] ++ [mkRatePeriod 5 9]) 24 =
    calculateLoanPrincipalWithMultipleRates 100 [mkRatePeriod 2 3] 24 /\
  calculateLoanPrincipalWithMultipleRates 100
    ([] ++ [mkRatePeriod 1 3; mkRatePeriod 1 3]) 24 =
    calculateLoanPrincipalWithMultipleRates 100
      ([] ++ [mkRatePeriod (1 + 1) 3]) 24.
Proof.
  split.
  - apply (proj1 (periods_read_by_months 100 0 0 [mkRatePeriod 2 3]
                    [mkRatePeriod 5 9] [] [] 0 0 24)).
    + cbn. lia.
    + discriminate.
  - apply (proj2 (periods_read_by_months 100 0 3 [] [] [] [] 1 1 24)); lia.
Defined.

(** * Double precision: where rounding separates the program from the
      exact formulas *)

Module DoublePrecision.
Import PrimFloat.
#[local] Open Scope float_scope.
#[local] Set Warnings "-inexact-float".

(** In doubles the product with the constant [1/3] is not the quotient by
    3: an income of 5 gives 1.6666666666666665, while [5/3] is
    1.6666666666666667. *)
Lemma C5_double_counterexample :
  Double.calculateMaxMonthlyInstallment 5 = 1.6666666666666665 /\
  (5 / 3) = 1.6666666666666667 /\
  Double.calculateMaxMonthlyInstallment 5 <> (5 / 3).
Proof.
  split; [vm_compute; reflexivity|]. split; [vm_compute; reflexivity|].
  intros H.
  apply (f_equal (fun x => PrimFloat.eqb x (5 / 3))) in H.
  vm_compute in H. discriminate.
Qed.



End DoublePrecision.
